(** * Shellish: a declarative command-line argument parser

    A shallow embedding of [src/shellish.ts] and [src/types.ts]:
    the argument registry ([addArgument]), the token walk ([parse]),
    the value collection ([processArgument]) and the required/default
    pass that closes [parse].

    Conventions of the embedding.
    - A JavaScript [number] used as an arity or an array index is a [Z];
      [args[i]] is [arr_get], which is [None] (undefined) out of range.
    - The [Map] of definitions keeps insertion order, so it is an
      association list with the [has]/[get]/[set] of a [Map]; the short
      name map is never iterated and the [parsedArguments] object is used
      as a dictionary, so both are [gmap]s.  [parsedArguments] is a plain
      object: the [in] test of the required/default pass also finds the
      properties the object inherits ([has_property]).
    - A callback is a function of the collected values, the context it is
      handed and the state of the outside world [W]; it returns normally
      or throws.  Callbacks read the context but do not write to it, and
      they always settle.  The walk logs each invocation in [st_calls].
    - A registry is what [addArgument] builds from an empty one.  The
      constructor's own two calls of [addArgument] ([help], [version])
      register callbacks that print and then end the process from inside
      [parse]; no callback of the model does that.  The constructor is
      modelled for what it registers, and what is said of whole runs
      ([run]) is said of runs that invoke neither of the two.
    - Nothing in the body of [parse] throws, so its outer [catch] is
      never entered and has no counterpart here. *)

From stdpp Require Import gmap strings list pretty.
From Stdlib Require Import ZArith Lia Ascii.

Local Open Scope string_scope.
Local Open Scope Z_scope.

(** ** JavaScript string and array primitives *)

(** [s.startsWith(p)] *)
Definition startsWith (s p : string) : bool := String.prefix p s.

(** [s.substring(n)]: everything from offset [n] on. *)
Definition substring_from (n : nat) (s : string) : string :=
  String.substring n (String.length s - n)%nat s.

(** [args[i]] for a possibly negative or too large index. *)
Definition arr_get (args : list string) (i : Z) : option string :=
  if i <? 0 then None else args !! Z.to_nat i.

(** [!x] for a value that is a string or undefined. *)
Definition falsy (x : option string) : bool :=
  match x with
  | None => true
  | Some s => bool_decide (s = "")
  end.

(** [args.length] *)
Definition arr_length (args : list string) : Z := Z.of_nat (length args).

(** ** Data model ([types.ts]) *)

(** The values that end up in [parsedArguments]: what [processArgument]
    stores ([true], a string, an array of strings) and what a
    [defaultValue] can be besides ([undefined] when the field is left
    out, [null], a number). *)
Inductive Value : Type :=
  | VUndefined
  | VNull
  | VBool (b : bool)
  | VNum (n : Z)
  | VStr (s : string)
  | VArr (l : list string).

#[global] Instance Value_eq_dec : EqDecision Value.
Proof. solve_decision. Defined.

Record ShellishOptions : Type := {
  name : string;
  description : string;
  version : option string;
  author : option string;
  helpText : option string
}.

Record ParsedContext : Type := {
  command : string;
  remainingArgs : list string;
  allArgs : list string;
  parsedArguments : gmap string Value
}.

(** What a thrown value is to the [catch] clauses: an [Error] with its
    message, or anything else. *)
Inductive Thrown : Type :=
  | ThrownError (message : string)
  | ThrownOther.

Inductive CallbackResult : Type :=
  | Returned
  | Threw (t : Thrown).

(** [error instanceof Error ? error.message : 'Unknown error'] *)
Definition thrown_message (t : Thrown) : string :=
  match t with
  | ThrownError m => m
  | ThrownOther => "Unknown error"
  end.

Record ParseResult : Type := {
  success : bool;
  error : option string;
  helpRequested : option bool
}.

#[global] Instance ParseResult_eq_dec : EqDecision ParseResult.
Proof. solve_decision. Defined.

(** ** Property lookup on [parsedArguments] *)

(** [parsedArguments] is created as [{}] and so inherits from
    [Object.prototype].  These are the property names found there. *)
Definition Object_prototype : list string :=
  ["constructor"; "__defineGetter__"; "__defineSetter__"; "hasOwnProperty";
   "__lookupGetter__"; "__lookupSetter__"; "isPrototypeOf";
   "propertyIsEnumerable"; "toString"; "valueOf"; "__proto__";
   "toLocaleString"].

(** The string-named properties of [Array.prototype] (ECMAScript 2023). *)
Definition Array_prototype : list string :=
  ["length"; "constructor"; "at"; "concat"; "copyWithin"; "fill"; "find";
   "findIndex"; "findLast"; "findLastIndex"; "lastIndexOf"; "pop"; "push";
   "reverse"; "shift"; "unshift"; "slice"; "sort"; "splice"; "includes";
   "indexOf"; "join"; "keys"; "entries"; "values"; "forEach"; "filter";
   "flat"; "flatMap"; "map"; "every"; "some"; "reduce"; "reduceRight";
   "toReversed"; "toSorted"; "toSpliced"; "with"; "toLocaleString";
   "toString"].

(** The own property names of an array: its indices and [length]. *)
Definition array_own (l : list string) (k : string) : bool :=
  bool_decide (k = "length")
  || bool_decide (k ∈ (fun i : nat => pretty i) <$> seq 0 (length l)).

(** The names [parsedArguments] inherits.  An assignment to the key
    [__proto__] goes to the setter of [Object.prototype]: an array
    becomes the prototype of the object, and its own properties and
    those of [Array.prototype] are inherited as well; any other value
    [processArgument] can store leaves the prototype as it is.  The map
    keeps under that key the value the engine assigned. *)
Definition inherited (pa : gmap string Value) (k : string) : bool :=
  bool_decide (k ∈ Object_prototype)
  || match pa !! "__proto__" with
     | Some (VArr l) => array_own l k || bool_decide (k ∈ Array_prototype)
     | _ => false
     end.

(** [k in parsedArguments]: an own property or an inherited one. *)
Definition has_property (pa : gmap string Value) (k : string) : bool :=
  bool_decide (is_Some (pa !! k)) || inherited pa k.

Section Shellish.

(** The state of the world outside the parser, which callbacks act on. *)
Context (W : Type).

(** A callback, as the parser sees it: it is handed the values and the
    context, acts on the world, and returns or throws. *)
Definition Callback : Type :=
  list string -> ParsedContext -> W -> W * CallbackResult.

Record ArgumentOptions : Type := {
  o_longName : string;
  o_shortName : option string;
  o_description : string;
  o_args : option Z;
  o_required : option bool;
  o_defaultValue : Value;
  o_callback : Callback
}.

Record ParsedArgument : Type := {
  longName : string;
  shortName : option string;
  a_description : string;
  args : Z;
  required : bool;
  defaultValue : Value;
  callback : Callback
}.

(** ** The registry *)

(** An insertion-ordered [Map<string, ParsedArgument>]. *)
Definition ArgMap : Type := list (string * ParsedArgument).

Fixpoint map_get (m : ArgMap) (k : string) : option ParsedArgument :=
  match m with
  | [] => None
  | (k', d) :: m' => if bool_decide (k' = k) then Some d else map_get m' k
  end.

Definition map_has (m : ArgMap) (k : string) : bool :=
  match map_get m k with Some _ => true | None => false end.

(** [Map.set]: an existing key keeps its place, a new one goes last. *)
Fixpoint map_set (m : ArgMap) (k : string) (d : ParsedArgument) : ArgMap :=
  match m with
  | [] => [(k, d)]
  | (k', d') :: m' =>
      if bool_decide (k' = k) then (k, d) :: m' else (k', d') :: map_set m' k d
  end.

Record Shellish : Type := {
  options : ShellishOptions;
  arguments : ArgMap;
  shortNameMap : gmap string string
}.

(** The messages of the two errors [addArgument] throws. *)
Definition DuplicateLongName (l : string) : string :=
  "Argument with long name '" ++ l ++ "' already exists".

Definition DuplicateShortName (s : string) : string :=
  "Argument with short name '" ++ s ++ "' already exists".

(** [this.arguments.set(longName, parsedArg); return this] *)
Definition register (this : Shellish) (parsedArg : ParsedArgument)
  : option string * Shellish :=
  (None, {| options := options this;
            arguments := map_set (arguments this) (longName parsedArg) parsedArg;
            shortNameMap := shortNameMap this |}).

(** [this.shortNameMap.set(s, l)] *)
Definition set_short (this : Shellish) (s l : string) : Shellish :=
  {| options := options this;
     arguments := arguments this;
     shortNameMap := <[s := l]> (shortNameMap this) |}.

(** [addArgument] mutates the instance, so it takes the registry and
    gives back the registry it leaves behind, next to [Some msg] when it
    threw [Error(msg)] and [None] when it returned. *)
Definition addArgument (this : Shellish) (argOptions : ArgumentOptions)
  : option string * Shellish :=
  let parsedArg := {|
    longName := o_longName argOptions;
    shortName := o_shortName argOptions;
    a_description := o_description argOptions;
    args := default 0 (o_args argOptions);
    required := default false (o_required argOptions);
    defaultValue := o_defaultValue argOptions;
    callback := o_callback argOptions |} in
  if map_has (arguments this) (o_longName argOptions) then
    (Some (DuplicateLongName (o_longName argOptions)), this)
  else
    match o_shortName argOptions with
    | Some s =>
        if bool_decide (s = "") then register this parsedArg
        else if bool_decide (is_Some (shortNameMap this !! s)) then
          (Some (DuplicateShortName s), this)
        else register (set_short this s (o_longName argOptions)) parsedArg
    | None => register this parsedArg
    end.

(** The registry before any [addArgument]. *)
Definition empty_registry (opts : ShellishOptions) : Shellish :=
  {| options := opts; arguments := []; shortNameMap := ∅ |}.

(** ** Collecting values and running the callback ([processArgument]) *)

(** One entry of the invocation log: which definition was called back,
    with which values and which context. *)
Record Invocation : Type := {
  inv_name : string;
  inv_values : list string;
  inv_context : ParsedContext
}.

(** What a parse has built so far: the context object (with its
    [parsedArguments]), the outside world and the invocation log. *)
Record PState : Type := {
  st_context : ParsedContext;
  st_world : W;
  st_calls : list Invocation
}.

Record ProcessResult : Type := {
  p_success : bool;
  nextIndex : Z;
  p_error : option string
}.

(** [context.parsedArguments[k] = v] *)
Definition set_parsed (ctx : ParsedContext) (k : string) (v : Value)
  : ParsedContext :=
  {| command := command ctx;
     remainingArgs := remainingArgs ctx;
     allArgs := allArgs ctx;
     parsedArguments := <[k := v]> (parsedArguments ctx) |}.

(** The [while] loop of the unlimited case.  [todo] counts the indices
    left before [args.length], the loop's own guard; the result is the
    values pushed and the final [j]. *)
Fixpoint collect_unlimited (todo : nat) (tokens : list string)
    (next j : Z) (argValues : list string) : list string * Z :=
  match todo with
  | O => (argValues, j)
  | S todo' =>
      let nextArg := arr_get tokens (next + j) in
      match nextArg with
      | Some t =>
          if falsy nextArg || startsWith t "-" then (argValues, j)
          else collect_unlimited todo' tokens next (j + 1) (argValues ++ [t])
      | None => (argValues, j)
      end
  end.

Definition InsufficientProvided (l : string) (n j : Z) : string :=
  "Argument --" ++ l ++ " requires " ++ pretty n
    ++ " value(s), but only " ++ pretty j ++ " provided".

Definition InsufficientFound (l : string) (n : Z) (nextArg : option string)
  : string :=
  "Argument --" ++ l ++ " requires " ++ pretty n ++ " value(s), but found "
    ++ (if falsy nextArg then "end of arguments"
        else "flag " ++ default "" nextArg).

(** The [for] loop of the fixed case.  [todo] counts the iterations left
    before [j] reaches [argumentDef.args]; [inl] is the early return. *)
Fixpoint collect_fixed (argumentDef : ParsedArgument) (todo : nat)
    (tokens : list string) (next j : Z) (argValues : list string)
  : ProcessResult + list string :=
  match todo with
  | O => inr argValues
  | S todo' =>
      if arr_length tokens <=? next + j then
        inl {| p_success := false; nextIndex := next + j;
               p_error := Some (InsufficientProvided (longName argumentDef)
                                  (args argumentDef) j) |}
      else
        let nextArg := arr_get tokens (next + j) in
        if falsy nextArg || startsWith (default "" nextArg) "-" then
          inl {| p_success := false; nextIndex := next + j;
                 p_error := Some (InsufficientFound (longName argumentDef)
                                    (args argumentDef) nextArg) |}
        else
          collect_fixed argumentDef todo' tokens next (j + 1)
            (argValues ++ [default "" nextArg])
  end.

(** [args === 0 ? true : (args === 1 ? argValues[0] : argValues)] *)
Definition normalize (n : Z) (argValues : list string) : Value :=
  if bool_decide (n = 0) then VBool true
  else if bool_decide (n = 1) then
    match argValues !! 0%nat with
    | Some v => VStr v
    | None => VUndefined
    end
  else VArr argValues.

Definition CallbackFailure (l : string) (t : Thrown) : string :=
  "Error executing callback for --" ++ l ++ ": " ++ thrown_message t.

(** The second half of [processArgument]: record the value, call back,
    report. *)
Definition record_and_call (argumentDef : ParsedArgument)
    (argValues : list string) (next : Z) (st : PState)
  : ProcessResult * PState :=
  let context := set_parsed (st_context st) (longName argumentDef)
                   (normalize (args argumentDef) argValues) in
  let '(w, r) := callback argumentDef argValues context (st_world st) in
  let st' := {| st_context := context; st_world := w;
                st_calls := st_calls st ++
                  [{| inv_name := longName argumentDef;
                      inv_values := argValues;
                      inv_context := context |}] |} in
  match r with
  | Threw t =>
      ({| p_success := false; nextIndex := next;
          p_error := Some (CallbackFailure (longName argumentDef) t) |}, st')
  | Returned =>
      ({| p_success := true; nextIndex := next; p_error := None |}, st')
  end.

(** The first half of [processArgument], up to the values and the
    [nextIndex] that go with them; [inl] is one of its early returns. *)
Definition collect_values (argumentDef : ParsedArgument)
    (tokens : list string) (currentIndex : Z)
  : ProcessResult + list string * Z :=
  let next := currentIndex + 1 in
  if bool_decide (args argumentDef = -1) then
    let '(argValues, j) :=
      collect_unlimited (Z.to_nat (arr_length tokens - next)) tokens next 0 [] in
    inr (argValues, next + j)
  else
    match collect_fixed argumentDef (Z.to_nat (args argumentDef))
            tokens next 0 [] with
    | inl early => inl early
    | inr argValues => inr (argValues, next + args argumentDef)
    end.

Definition processArgument (argumentDef : ParsedArgument)
    (tokens : list string) (currentIndex : Z) (st : PState)
  : ProcessResult * PState :=
  match collect_values argumentDef tokens currentIndex with
  | inl early => (early, st)
  | inr (argValues, next) => record_and_call argumentDef argValues next st
  end.

(** ** The token walk and the required/default pass ([parse]) *)

Definition UnknownArgument (arg : string) : string :=
  "Unknown argument: " ++ arg.

Definition InternalError (l : string) : string :=
  "Internal error: argument definition not found for " ++ l.

Definition MissingRequiredArgument (l : string) : string :=
  "Required argument --" ++ l ++ " is missing".

Definition failure (msg : string) : ParseResult :=
  {| success := false; error := Some msg; helpRequested := None |}.

Definition succeeded : ParseResult :=
  {| success := true; error := None; helpRequested := None |}.

(** [return result] for a failed [processArgument]: the caller sees it as
    a [ParseResult]. *)
Definition as_ParseResult (r : ProcessResult) : ParseResult :=
  {| success := p_success r; error := p_error r; helpRequested := None |}.

(** The [for ... of this.arguments] loop over the entries, in insertion
    order. *)
Fixpoint check_required (entries : ArgMap) (ctx : ParsedContext)
  : ParseResult * ParsedContext :=
  match entries with
  | [] => (succeeded, ctx)
  | (l, argDef) :: entries' =>
      if required argDef && negb (has_property (parsedArguments ctx) l)
      then
        if negb (bool_decide (defaultValue argDef = VUndefined)) then
          check_required entries' (set_parsed ctx l (defaultValue argDef))
        else (failure (MissingRequiredArgument l), ctx)
      else check_required entries' ctx
  end.

Definition finish (this : Shellish) (st : PState) : ParseResult * PState :=
  let '(r, ctx) := check_required (arguments this) (st_context st) in
  (r, {| st_context := ctx; st_world := st_world st;
         st_calls := st_calls st |}).

(** How a token at the cursor is classified. *)
Inductive Dispatch : Type :=
  | Skip
  | Unknown (arg : string)
  | Internal (l : string)
  | Matched (argumentDef : ParsedArgument).

Definition dispatch (this : Shellish) (tokens : list string) (i : Z)
  : Dispatch :=
  let arg := arr_get tokens i in
  if falsy arg then Skip
  else
    let arg := default "" arg in
    if startsWith arg "--" then
      let l := substring_from 2 arg in
      match map_get (arguments this) l with
      | None => Unknown arg
      | Some argumentDef => Matched argumentDef
      end
    else if startsWith arg "-" && bool_decide (1 < String.length arg)%nat then
      let s := substring_from 1 arg in
      let l := shortNameMap this !! s in
      if falsy l then Unknown arg
      else
        let l := default "" l in
        match map_get (arguments this) l with
        | None => Internal l
        | Some argumentDef => Matched argumentDef
        end
    else Skip.

(** How the [while] loop is left: by one of its [return]s, or through
    its guard. *)
Inductive LoopExit : Type :=
  | EarlyReturn (r : ParseResult)
  | FellThrough.

(** The [while (i < args.length)] loop.  The cursor can move backwards
    when an arity below [-1] is registered, so the loop is run on fuel;
    [None] means the fuel ran out. *)
Fixpoint parse_loop (this : Shellish) (tokens : list string) (fuel : nat)
    (i : Z) (st : PState) : option (LoopExit * PState) :=
  match fuel with
  | O => None
  | S fuel' =>
      if i <? arr_length tokens then
        match dispatch this tokens i with
        | Skip => parse_loop this tokens fuel' (i + 1) st
        | Unknown arg => Some (EarlyReturn (failure (UnknownArgument arg)), st)
        | Internal l => Some (EarlyReturn (failure (InternalError l)), st)
        | Matched argumentDef =>
            let '(result, st') := processArgument argumentDef tokens i st in
            if negb (p_success result)
            then Some (EarlyReturn (as_ParseResult result), st')
            else parse_loop this tokens fuel' (nextIndex result) st'
        end
      else Some (FellThrough, st)
  end.

(** The fresh context of a [parse] call. *)
Definition initial_state (this : Shellish) (tokens : list string) (w : W)
  : PState :=
  {| st_context := {| command := name (options this);
                      remainingArgs := tokens;
                      allArgs := tokens;
                      parsedArguments := ∅ |};
     st_world := w;
     st_calls := [] |}.

(** [parse], started in world [w], with the final state next to the
    result it returns. *)
Definition parse_fuel (this : Shellish) (fuel : nat) (tokens : list string)
    (w : W) : option (ParseResult * PState) :=
  match parse_loop this tokens fuel 0 (initial_state this tokens w) with
  | None => None
  | Some (EarlyReturn r, st) => Some (r, st)
  | Some (FellThrough, st) => Some (finish this st)
  end.

(** With every arity at least [-1] the cursor only moves forward and
    [length tokens + 1] rounds are enough. *)
Definition parse (this : Shellish) (tokens : list string) (w : W)
  : option (ParseResult * PState) :=
  parse_fuel this (S (length tokens)) tokens w.

End Shellish.

Arguments Callback W : clear implicits.
Arguments o_longName {W} _.
Arguments o_shortName {W} _.
Arguments o_description {W} _.
Arguments o_args {W} _.
Arguments o_required {W} _.
Arguments o_defaultValue {W} _.
Arguments o_callback {W} _.
Arguments a_description {W} _.
Arguments longName {W} _.
Arguments shortName {W} _.
Arguments args {W} _.
Arguments required {W} _.
Arguments defaultValue {W} _.
Arguments callback {W} _.
Arguments map_get {W} m k.
Arguments map_has {W} m k.
Arguments map_set {W} m k d.
Arguments options {W} _.
Arguments arguments {W} _.
Arguments shortNameMap {W} _.
Arguments register {W} this parsedArg.
Arguments set_short {W} this s l.
Arguments addArgument {W} this argOptions.
Arguments empty_registry {W} opts.
Arguments st_context {W} _.
Arguments st_world {W} _.
Arguments st_calls {W} _.
Arguments collect_fixed {W} argumentDef todo tokens next j argValues.
Arguments record_and_call {W} argumentDef argValues next st.
Arguments collect_values {W} argumentDef tokens currentIndex.
Arguments processArgument {W} argumentDef tokens currentIndex st.
Arguments check_required {W} entries ctx.
Arguments finish {W} this st.
Arguments dispatch {W} this tokens i.
Arguments parse_loop {W} this tokens fuel i st.
Arguments initial_state {W} this tokens w.
Arguments parse_fuel {W} this fuel tokens w.
Arguments parse {W} this tokens w.
Arguments Skip {W}.
Arguments Unknown {W} arg.
Arguments Internal {W} l.
Arguments Matched {W} argumentDef.

(** ** The constructor *)

(** [if (x)] for a value that is a string or undefined. *)
Definition truthy (x : option string) : bool := negb (falsy x).

(** The two definitions the constructor registers.  Their callbacks
    print and then end the process, which no [Callback] does; the
    constructor is modelled for what it registers, with the two
    callbacks left open. *)
Definition helpArgument {W : Type} (helpCallback : Callback W)
  : ArgumentOptions W :=
  {| o_longName := "help"; o_shortName := Some "h";
     o_description := "Show help information";
     o_args := Some 0; o_required := None; o_defaultValue := VUndefined;
     o_callback := helpCallback |}.

Definition versionArgument {W : Type} (versionCallback : Callback W)
  : ArgumentOptions W :=
  {| o_longName := "version"; o_shortName := Some "v";
     o_description := "Show version information";
     o_args := Some 0; o_required := None; o_defaultValue := VUndefined;
     o_callback := versionCallback |}.

(** [new Shellish(options)]: the instance the constructor leaves, next
    to [Some msg] if one of its [addArgument] calls threw. *)
Definition new_Shellish {W : Type} (opts : ShellishOptions)
    (helpCallback versionCallback : Callback W)
  : option string * Shellish W :=
  let '(thrown, this) :=
    addArgument (empty_registry opts) (helpArgument helpCallback) in
  match thrown with
  | Some e => (Some e, this)
  | None =>
      if truthy (version opts)
      then addArgument this (versionArgument versionCallback)
      else (None, this)
  end.

(** ** The help text ([showHelp]) *)

Definition newline : string := String (ascii_of_nat 10) "".

Fixpoint spaces (n : nat) : string :=
  match n with
  | O => ""
  | S n' => String " " (spaces n')
  end.

(** [Math.max(...xs)]; [None] is the [-Infinity] of an empty list. *)
Definition Math_max (xs : list Z) : option Z :=
  foldr (fun x acc => Some (match acc with
                            | None => x
                            | Some y => Z.max x y
                            end)) None xs.

(** [s.padEnd(target)]: spaces up to [target] characters, nothing when
    [s] is that long already (or the target is [-Infinity]). *)
Definition padEnd (s : string) (target : option Z) : string :=
  match target with
  | None => s
  | Some n => s ++ spaces (Z.to_nat (n - Z.of_nat (String.length s)))
  end.

Definition shortFlag {W : Type} (argDef : ParsedArgument W) : string :=
  if truthy (shortName argDef)
  then "-" ++ default "" (shortName argDef) ++ ", "
  else "    ".

Definition argsIndicator {W : Type} (argDef : ParsedArgument W) : string :=
  if 0 <? args argDef
  then " <" ++ (if bool_decide (args argDef = 1) then "value"
                else pretty (args argDef) ++ " values") ++ ">"
  else "".

Definition requiredMark {W : Type} (argDef : ParsedArgument W) : string :=
  if required argDef then " (required)" else "".

(** The line [showHelp] prints for one entry of the map. *)
Definition optionLine {W : Type} (maxLongNameLength : option Z)
    (e : string * ParsedArgument W) : string :=
  "  " ++ shortFlag e.2
    ++ padEnd ("--" ++ e.1) ((fun m => m + 2) <$> maxLongNameLength)
    ++ padEnd (argsIndicator e.2) (Some 15)
    ++ " " ++ a_description e.2 ++ requiredMark e.2.

(** [showHelp]: the lines it hands to [console.log], in order. *)
Definition showHelp {W : Type} (this : Shellish W) : list string :=
  let opts := options this in
  let argEntries := arguments this in
  let maxLongNameLength :=
    Math_max ((fun e => Z.of_nat (String.length e.1)) <$> argEntries) in
  ([(name opts ++ " - " ++ description opts)%string]
   ++ (if truthy (version opts)
       then [("Version: " ++ default "" (version opts))%string] else [])
   ++ (if truthy (author opts)
       then [("Author: " ++ default "" (author opts))%string] else [])
   ++ [(newline ++ "Usage:")%string;
       ("  " ++ name opts ++ " [options]")%string;
       (newline ++ "Options:")%string]
   ++ (optionLine maxLongNameLength <$> argEntries)
   ++ (if truthy (helpText opts)
       then [(newline ++ default "" (helpText opts))%string] else []))%list.

(** ** The run wrapper ([run]) *)

(** How [run] ends the process, and the lines it prints itself. *)
Record RunOutcome : Type := {
  exitCode : Z;
  stderr : list string;
  stdout : list string
}.

(** [run], from the result of the [parse] inside; [None] when that
    [parse] runs out of fuel.  When the walk invokes one of the
    constructor's own callbacks the process ends there, [parse] does not
    return and the rest of [run] is not reached: what [run_fuel] gives
    for such a walk describes no run. *)
Definition run_fuel {W : Type} (this : Shellish W) (fuel : nat)
    (tokens : list string) (w : W) : option (RunOutcome * PState W) :=
  match parse_fuel this fuel tokens w with
  | None => None
  | Some (result, st) =>
      if negb (success result) then
        Some ({| exitCode := 1;
                 stderr := ["Error: " ++ default "undefined" (error result)];
                 stdout := [newline ++ "Use --help for usage information."] |},
              st)
      else Some ({| exitCode := 0; stderr := []; stdout := [] |}, st)
  end.

Definition run {W : Type} (this : Shellish W) (tokens : list string) (w : W)
  : option (RunOutcome * PState W) :=
  run_fuel this (S (length tokens)) tokens w.


(** * Properties *)

(** ** Values available after a flag, in the words of the specification *)

(** A token that can be a value: present (not empty) and not
    dash-prefixed. *)
Definition usable (t : string) : bool :=
  negb (bool_decide (t = "")) && negb (startsWith t "-").

(** The tokens from index [start] on; nothing for an index that is not
    one of the array. *)
Definition tokens_from (tokens : list string) (start : Z) : list string :=
  if start <? 0 then [] else drop (Z.to_nat start) tokens.

Fixpoint take_usable (l : list string) : list string :=
  match l with
  | [] => []
  | t :: l' => if usable t then t :: take_usable l' else []
  end.

(** The consecutive usable tokens that start at [start]. *)
Definition values_run (tokens : list string) (start : Z) : list string :=
  take_usable (tokens_from tokens start).

(** [sub] occurs somewhere in [s]. *)
Fixpoint contains (sub s : string) : bool :=
  String.prefix sub s ||
  match s with
  | EmptyString => false
  | String _ s' => contains sub s'
  end.

(** A required definition that is not found in [parsedArguments] after
    the walk and that has no default to fall back on. *)
Definition fatal_gap {W : Type} (pa : gmap string Value)
    (e : string * ParsedArgument W) : Prop :=
  required e.2 = true /\ has_property pa e.1 = false
  /\ defaultValue e.2 = VUndefined.


(** The invariant [addArgument] maintains: long names are registered
    once, each under its own name, and every short name is a non-empty
    alias of a registered definition that carries it. *)
Definition registry_ok {W : Type} (this : Shellish W) : Prop :=
  NoDup (arguments this).*1
  /\ Forall (fun e => longName e.2 = e.1) (arguments this)
  /\ forall s l, shortNameMap this !! s = Some l ->
       s <> "" /\ exists d, map_get (arguments this) l = Some d
                            /\ shortName d = Some s.


(** A callback that does not look at the raw tokens the context carries
    ([allArgs], [remainingArgs]). *)
Definition snapshot_blind {W : Type} (cb : Callback W) : Prop :=
  forall argValues ctx ctx' w,
    command ctx = command ctx' ->
    parsedArguments ctx = parsedArguments ctx' ->
    cb argValues ctx w = cb argValues ctx' w.

(** Two contexts that differ at most in the raw tokens they carry. *)
Definition same_context (ctx ctx' : ParsedContext) : Prop :=
  command ctx = command ctx' /\ parsedArguments ctx = parsedArguments ctx'.

Definition same_call (inv inv' : Invocation) : Prop :=
  inv_name inv = inv_name inv'
  /\ inv_values inv = inv_values inv'
  /\ same_context (inv_context inv) (inv_context inv').

Definition same_state {W : Type} (st st' : PState W) : Prop :=
  same_context (st_context st) (st_context st')
  /\ st_world st = st_world st'
  /\ Forall2 same_call (st_calls st) (st_calls st').

(** Two runs that end alike: the same result, the same recorded values,
    the same world, the same callbacks invoked in the same order with
    the same values. *)
Definition same_outcome {W E : Type} (o o' : option (E * PState W)) : Prop :=
  match o, o' with
  | Some (e, st), Some (e', st') => e = e' /\ same_state st st'
  | None, None => True
  | _, _ => False
  end.


(** [arrives this tokens w i st]: a [parse] of [tokens] started in world
    [w] gets to the top of its loop with the cursor at [i] and the state
    [st]. *)
Inductive arrives {W : Type} (this : Shellish W) (tokens : list string)
    (w : W) : Z -> PState W -> Prop :=
  | arrives_start : arrives this tokens w 0 (initial_state this tokens w)
  | arrives_skip i st :
      arrives this tokens w i st ->
      i < arr_length tokens ->
      dispatch this tokens i = Skip ->
      arrives this tokens w (i + 1) st
  | arrives_matched i st argumentDef :
      arrives this tokens w i st ->
      dispatch this tokens i = Matched argumentDef ->
      p_success (processArgument argumentDef tokens i st).1 = true ->
      arrives this tokens w
        (nextIndex (processArgument argumentDef tokens i st).1)
        (processArgument argumentDef tokens i st).2.


(** The walk comes upon a token that resolves to a definition named
    [k]. *)
Definition resolves {W : Type} (this : Shellish W) (tokens : list string)
    (w : W) (k : string) : Prop :=
  exists i st d,
    arrives this tokens w i st
    /\ dispatch this tokens i = Matched d /\ longName d = k.

(** What holds of every state the walk goes through: every recorded
    name and every logged invocation comes from a token the walk came
    upon and that resolves to it. *)
Definition walk_inv {W : Type} (this : Shellish W) (tokens : list string)
    (w : W) (st : PState W) : Prop :=
  (forall k, is_Some (parsedArguments (st_context st) !! k) ->
     resolves this tokens w k)
  /\ Forall (fun inv => resolves this tokens w (inv_name inv)) (st_calls st).

(** The registry after a sequence of [addArgument] calls, whether they
    return or throw. *)
Definition after_calls {W : Type} (this : Shellish W)
    (calls : list (ArgumentOptions W)) : Shellish W :=
  foldl (fun this argOptions => (addArgument this argOptions).2) this calls.

(** The definition [addArgument] builds from its options. *)
Definition definition_of {W : Type} (argOptions : ArgumentOptions W)
  : ParsedArgument W :=
  {| longName := o_longName argOptions;
     shortName := o_shortName argOptions;
     a_description := o_description argOptions;
     args := default 0 (o_args argOptions);
     required := default false (o_required argOptions);
     defaultValue := o_defaultValue argOptions;
     callback := o_callback argOptions |}.


(** The long names whose callbacks are the constructor's own: [help],
    and [version] when the options carry one.  Those callbacks end the
    process from inside [parse]; a run that invokes one of them is not a
    run of callbacks that return or throw. *)
Definition built_in {W : Type} (this : Shellish W) (k : string) : bool :=
  bool_decide (k = "help")
  || (truthy (version (options this)) && bool_decide (k = "version")).

(** The messages a [parse] of [tokens] can fail with, each with where it
    comes from. *)
Inductive parse_error {W : Type} (this : Shellish W) (tokens : list string)
  : string -> Prop :=
  | error_unknown tok :
      tok ∈ tokens -> tok <> "" ->
      parse_error this tokens (UnknownArgument tok)
  | error_internal i l :
      dispatch this tokens i = Internal l ->
      parse_error this tokens (InternalError l)
  | error_provided i d j :
      dispatch this tokens i = Matched d ->
      parse_error this tokens (InsufficientProvided (longName d) (args d) j)
  | error_found i d nextArg :
      dispatch this tokens i = Matched d ->
      parse_error this tokens (InsufficientFound (longName d) (args d) nextArg)
  | error_callback i d t :
      dispatch this tokens i = Matched d ->
      parse_error this tokens (CallbackFailure (longName d) t)
  | error_missing l d :
      (l, d) ∈ arguments this -> required d = true ->
      defaultValue d = VUndefined ->
      parse_error this tokens (MissingRequiredArgument l).


(** ** Registries and callbacks to run the model on *)

Module Examples.

(** The outside world of the examples: the lines the callbacks have
    written. *)
Definition Log : Type := list string.

Definition say (line : string) : Callback Log :=
  fun _ _ w => ((w ++ [line])%list, Returned).

Definition throwing (message : string) : Callback Log :=
  fun _ _ w => (w, Threw (ThrownError message)).

(** A callback that looks at the raw tokens in its context. *)
Definition peek : Callback Log :=
  fun _ ctx w =>
    if bool_decide (allArgs ctx = ["-v"]) then
      (w, Threw (ThrownError "short form"))
    else (w, Returned).

Definition test_cli : ShellishOptions :=
  {| name := "test-cli"; description := "A test CLI application";
     version := None; author := None; helpText := None |}.

Definition argument (l : string) (s : option string) (n : option Z)
    (r : option bool) (dv : Value) (cb : Callback Log)
  : ArgumentOptions Log :=
  {| o_longName := l; o_shortName := s; o_description := "";
     o_args := n; o_required := r; o_defaultValue := dv;
     o_callback := cb |}.

(** The registry after a sequence of [addArgument] calls. *)
Definition registry_of (l : list (ArgumentOptions Log)) : Shellish Log :=
  foldl (fun this o => (addArgument this o).2) (empty_registry test_cli) l.

Definition verbose_def : ParsedArgument Log :=
  {| longName := "verbose"; shortName := Some "v"; a_description := "";
     args := 0; required := false; defaultValue := VUndefined;
     callback := say "verbose" |}.


Definition files_def : ParsedArgument Log :=
  {| longName := "files"; shortName := None; a_description := "";
     args := 3; required := false; defaultValue := VUndefined;
     callback := say "files" |}.

Definition exclude_def : ParsedArgument Log :=
  {| longName := "exclude"; shortName := None; a_description := "";
     args := -1; required := false; defaultValue := VUndefined;
     callback := say "exclude" |}.

Definition error_def : ParsedArgument Log :=
  {| longName := "error"; shortName := None; a_description := "";
     args := 0; required := false; defaultValue := VUndefined;
     callback := throwing "Callback error" |}.

(** The arguments the test suite registers, in one registry. *)
Definition cli : Shellish Log :=
  registry_of
    [argument "verbose" (Some "v") None None VUndefined (say "verbose");
     argument "file" (Some "f") (Some 1) None VUndefined (say "file");
     argument "files" None (Some 3) None VUndefined (say "files");
     argument "exclude" None (Some (-1)) None VUndefined (say "exclude");
     argument "error" None None None VUndefined (throwing "Callback error")].

Definition optional_def : ParsedArgument Log :=
  {| longName := "optional"; shortName := None; a_description := "";
     args := 1; required := true; defaultValue := VStr "default-value";
     callback := say "optional" |}.

Definition required_def : ParsedArgument Log :=
  {| longName := "required"; shortName := None; a_description := "";
     args := 1; required := true; defaultValue := VUndefined;
     callback := say "required" |}.

Definition mode_def : ParsedArgument Log :=
  {| longName := "mode"; shortName := None; a_description := "";
     args := 1; required := true; defaultValue := VUndefined;
     callback := say "mode" |}.

(** A required argument with a default. *)
Definition cli_default : Shellish Log :=
  registry_of
    [argument "optional" None (Some 1) (Some true) (VStr "default-value")
       (say "optional")].

(** A flag next to a required argument with a default. *)
Definition cli_mixed : Shellish Log :=
  registry_of
    [argument "verbose" (Some "v") None None VUndefined (say "verbose");
     argument "optional" None (Some 1) (Some true) (VStr "default-value")
       (say "optional")].

(** A default first, then two required arguments without one. *)
Definition cli_required : Shellish Log :=
  registry_of
    [argument "optional" None (Some 1) (Some true) (VStr "default-value")
       (say "optional");
     argument "required" None (Some 1) (Some true) VUndefined (say "required");
     argument "mode" None (Some 1) (Some true) VUndefined (say "mode")].

(** An arity below [-1]. *)
Definition cli_loop : Shellish Log :=
  registry_of
    [argument "loop" None (Some (-2)) None VUndefined (say "loop")].

(** A short name that starts with a dash. *)
Definition cli_dash : Shellish Log :=
  registry_of
    [argument "quiet" (Some "-q") None None VUndefined (say "quiet")].

(** An empty long name. *)
Definition cli_empty : Shellish Log :=
  registry_of [argument "" (Some "e") None None VUndefined (say "empty")].

(** A callback that tells [-v] from [--verbose]. *)
Definition cli_peek : Shellish Log :=
  registry_of [argument "verbose" (Some "v") None None VUndefined peek].

(** Two required arguments named like properties every object has:
    one without a default, one with. *)
Definition cli_inherited : Shellish Log :=
  registry_of
    [argument "toString" None (Some 1) (Some true) VUndefined
       (say "toString");
     argument "constructor" None (Some 1) (Some true) (VStr "dflt")
       (say "constructor")].

(** An argument named [__proto__] that takes two values, next to a
    required one named like a property of arrays. *)
Definition cli_proto : Shellish Log :=
  registry_of
    [argument "__proto__" None (Some 2) None VUndefined (say "__proto__");
     argument "length" None (Some 1) (Some true) VUndefined (say "length")].

(** What one reads off a finished [parse]: the result, the world, and
    the callbacks that ran with their values. *)
Definition view (o : option (ParseResult * PState Log))
  : option (ParseResult * Log * list (string * list string)) :=
  match o with
  | Some (r, st) =>
      Some (r, st_world st,
            map (fun inv => (inv_name inv, inv_values inv)) (st_calls st))
  | None => None
  end.

(** [parsedArguments[k]] at the end of a [parse]. *)
Definition recorded (o : option (ParseResult * PState Log)) (k : string)
  : option Value :=
  match o with
  | Some (_, st) => parsedArguments (st_context st) !! k
  | None => None
  end.

End Examples.

(** ** The command line of [examples/basic.ts] *)

Module MoreExamples.

Import Examples.

Definition exec_options : ShellishOptions :=
  {| name := "exec"; description := "Execute nice files";
     version := Some "1.0.0"; author := Some "Your Name";
     helpText := None |}.

(** The instance of [examples/basic.ts], after its three
    [addArgument] calls. *)
Definition exec_cli : Shellish Log :=
  after_calls (new_Shellish exec_options (say "help") (say "version")).2
    [{| o_longName := "file"; o_shortName := Some "f";
        o_description := "Path to the file to execute";
        o_args := Some 1; o_required := Some true;
        o_defaultValue := VUndefined; o_callback := say "file" |};
     {| o_longName := "verbose"; o_shortName := None;
        o_description := "Enable verbose output";
        o_args := Some 0; o_required := None;
        o_defaultValue := VUndefined; o_callback := say "verbose" |};
     {| o_longName := "output"; o_shortName := Some "o";
        o_description := "Output file for results";
        o_args := Some 1; o_required := None;
        o_defaultValue := VUndefined; o_callback := say "output" |}].

(** The flag the test suite adds to an instance that has a version. *)
Definition verbose_v : ArgumentOptions Log :=
  argument "verbose" (Some "v") None None VUndefined (say "verbose").

(** The result and state of a finished [parse]. *)
Definition finished (o : option (ParseResult * PState Log))
  : ParseResult * PState Log :=
  default (succeeded, initial_state cli [] []) o.

End MoreExamples.


(** ** Proof automation *)

(** The three tests one round of the pass makes. *)
Ltac required_cases d l ctx :=
  destruct (required d) eqn:?Hreq;
  destruct (has_property (parsedArguments ctx) l) eqn:?Hin;
  destruct (bool_decide_reflect (defaultValue d = VUndefined))
    as [?Hundef|?Hdef];
  simpl.

Section Facts.

Context {W : Type}.
Implicit Types (this : Shellish W) (argumentDef : ParsedArgument W).
Implicit Types (tokens argValues : list string) (st : PState W).

(** ** Auxiliary facts *)

(** *** Array reads and runs of values *)

Lemma arr_get_Some tokens i t :
  arr_get tokens i = Some t -> 0 <= i < arr_length tokens.
Proof.
  unfold arr_get, arr_length. destruct (Z.ltb_spec i 0); [done|].
  intros H0. apply lookup_lt_Some in H0. lia.
Qed.

Lemma arr_get_in_range tokens i :
  0 <= i < arr_length tokens -> is_Some (arr_get tokens i).
Proof.
  unfold arr_get, arr_length. intros [Hlo Hhi].
  destruct (Z.ltb_spec i 0); [lia|]. apply lookup_lt_is_Some. lia.
Qed.

Lemma arr_get_past tokens i : arr_length tokens <= i -> arr_get tokens i = None.
Proof.
  unfold arr_get, arr_length. intros Hi.
  destruct (Z.ltb_spec i 0); [done|]. apply lookup_ge_None. lia.
Qed.

Lemma tokens_from_step tokens i t :
  arr_get tokens i = Some t ->
  tokens_from tokens i = t :: tokens_from tokens (i + 1).
Proof.
  intros Hget. pose proof (arr_get_Some _ _ _ Hget) as Hi.
  unfold arr_get in Hget. unfold tokens_from.
  destruct (Z.ltb_spec i 0); [lia|]. destruct (Z.ltb_spec (i + 1) 0); [lia|].
  replace (Z.to_nat (i + 1)) with (S (Z.to_nat i)) by lia.
  by apply drop_S.
Qed.

Lemma tokens_from_none tokens i :
  arr_get tokens i = None -> tokens_from tokens i = [].
Proof.
  unfold arr_get, tokens_from. destruct (Z.ltb_spec i 0); [done|].
  intros Hnone. apply lookup_ge_None in Hnone. by apply drop_ge.
Qed.

Lemma values_run_none tokens i :
  arr_get tokens i = None -> values_run tokens i = [].
Proof. intros Hnone. unfold values_run. by rewrite tokens_from_none. Qed.

Lemma values_run_usable tokens i t :
  arr_get tokens i = Some t -> usable t = true ->
  values_run tokens i = t :: values_run tokens (i + 1).
Proof.
  intros Hget Hu. unfold values_run.
  rewrite (tokens_from_step _ _ _ Hget). simpl. by rewrite Hu.
Qed.

Lemma values_run_stop tokens i t :
  arr_get tokens i = Some t -> usable t = false -> values_run tokens i = [].
Proof.
  intros Hget Hu. unfold values_run.
  rewrite (tokens_from_step _ _ _ Hget). simpl. by rewrite Hu.
Qed.

(** The test both collecting loops make on a token is [usable]. *)
Lemma rejected_iff_not_usable t :
  falsy (Some t) || startsWith t "-" = negb (usable t).
Proof.
  unfold usable, falsy. by destruct (bool_decide (t = "")), (startsWith t "-").
Qed.

Lemma take_usable_all l : Forall (fun t => usable t = true) (take_usable l).
Proof.
  induction l as [|t l IH]; simpl; [constructor|].
  destruct (usable t) eqn:Hu; by constructor.
Qed.

Lemma take_usable_end (l : list string) :
  match l !! length (take_usable l) with
  | None => True
  | Some t => usable t = false
  end.
Proof.
  induction l as [|t l IH]; simpl; [done|].
  destruct (usable t) eqn:Hu; simpl; [done|by rewrite Hu].
Qed.

(** Where a run ends there is no token, or one that is not usable. *)
Lemma values_run_end tokens i :
  0 <= i ->
  match arr_get tokens (i + arr_length (values_run tokens i)) with
  | None => True
  | Some t => usable t = false
  end.
Proof.
  intros Hi. unfold values_run, tokens_from, arr_get, arr_length.
  destruct (Z.ltb_spec i 0); [lia|].
  set (run := take_usable (drop (Z.to_nat i) tokens)).
  destruct (Z.ltb_spec (i + Z.of_nat (length run)) 0); [done|].
  pose proof (take_usable_end (drop (Z.to_nat i) tokens)) as Hend.
  rewrite lookup_drop in Hend. fold run in Hend.
  replace (Z.to_nat (i + Z.of_nat (length run)))
    with (Z.to_nat i + length run)%nat by lia.
  exact Hend.
Qed.

Lemma arr_get_tail (t t' : string) tokens i :
  i <> 0 -> arr_get (t :: tokens) i = arr_get (t' :: tokens) i.
Proof.
  intros Hi. unfold arr_get. destruct (Z.ltb_spec i 0); [done|].
  destruct (Z.to_nat i) as [|n] eqn:Hn; [lia|done].
Qed.

Lemma values_run_tail (t t' : string) tokens i :
  0 < i -> values_run (t :: tokens) i = values_run (t' :: tokens) i.
Proof.
  intros Hi. unfold values_run, tokens_from.
  destruct (Z.ltb_spec i 0); [done|].
  destruct (Z.to_nat i) as [|n] eqn:Hn; [lia|done].
Qed.

(** *** The two collecting loops *)

Lemma collect_unlimited_run todo tokens next j argValues :
  todo = Z.to_nat (arr_length tokens - (next + j)) ->
  collect_unlimited todo tokens next j argValues =
    ((argValues ++ values_run tokens (next + j))%list,
     j + arr_length (values_run tokens (next + j))).
Proof.
  revert j argValues.
  induction todo as [|todo IH]; intros j argValues Htodo; simpl.
  - rewrite values_run_none by (apply arr_get_past; lia).
    rewrite app_nil_r. unfold arr_length. simpl. f_equal. lia.
  - destruct (arr_get tokens (next + j)) as [t|] eqn:Hget.
    + rewrite rejected_iff_not_usable. destruct (usable t) eqn:Hu; simpl.
      * rewrite (values_run_usable _ _ _ Hget Hu).
        rewrite IH by lia. rewrite <- app_assoc. simpl.
        replace (next + (j + 1)) with (next + j + 1) by lia.
        f_equal. unfold arr_length. simpl. lia.
      * rewrite (values_run_stop _ _ _ Hget Hu), app_nil_r.
        unfold arr_length. simpl. f_equal. lia.
    + rewrite values_run_none by done. rewrite app_nil_r.
      unfold arr_length. simpl. f_equal. lia.
Qed.

(** The fixed loop succeeds exactly when the run is long enough, and
    then takes its first [todo] tokens. *)
Lemma collect_fixed_enough argumentDef todo tokens next j argValues :
  (todo <= length (values_run tokens (next + j)))%nat ->
  collect_fixed argumentDef todo tokens next j argValues =
    inr (argValues ++ take todo (values_run tokens (next + j)))%list.
Proof.
  revert j argValues.
  induction todo as [|todo IH]; intros j argValues Hlen; simpl.
  - by rewrite take_0, app_nil_r.
  - destruct (arr_get tokens (next + j)) as [t|] eqn:Hget;
      [|rewrite values_run_none in Hlen by done; simpl in Hlen; lia].
    pose proof (arr_get_Some _ _ _ Hget) as Hrange.
    destruct (Z.leb_spec (arr_length tokens) (next + j)); [lia|].
    change (default "" (Some t)) with t. rewrite rejected_iff_not_usable.
    destruct (usable t) eqn:Hu; simpl;
      [|rewrite (values_run_stop _ _ _ Hget Hu) in Hlen; simpl in Hlen; lia].
    rewrite (values_run_usable _ _ _ Hget Hu) in Hlen |- *. simpl in Hlen.
    replace (next + j + 1) with (next + (j + 1)) in * by lia.
    rewrite IH by lia. simpl. by rewrite <- app_assoc.
Qed.

(** When the run is too short the loop returns early, at the index
    where the run ends, with one of its two messages. *)
Lemma collect_fixed_short argumentDef todo tokens next j argValues :
  (length (values_run tokens (next + j)) < todo)%nat ->
  let stop := next + j + arr_length (values_run tokens (next + j)) in
  collect_fixed argumentDef todo tokens next j argValues =
    inl {| p_success := false;
           nextIndex := stop;
           p_error := Some
             (if arr_length tokens <=? stop
              then InsufficientProvided (longName argumentDef)
                     (args argumentDef)
                     (j + arr_length (values_run tokens (next + j)))
              else InsufficientFound (longName argumentDef)
                     (args argumentDef) (arr_get tokens stop)) |}.
Proof.
  revert j argValues.
  induction todo as [|todo IH]; intros j argValues Hlen; simpl; [lia|].
  destruct (Z.leb_spec (arr_length tokens) (next + j)) as [Hpast|Hin].
  - rewrite values_run_none by (by apply arr_get_past).
    change (arr_length []) with 0. rewrite !Z.add_0_r.
    destruct (Z.leb_spec (arr_length tokens) (next + j)); [done|lia].
  - destruct (arr_get tokens (next + j)) as [t|] eqn:Hget.
    + change (default "" (Some t)) with t.
      rewrite rejected_iff_not_usable. destruct (usable t) eqn:Hu; simpl.
      * rewrite (values_run_usable _ _ _ Hget Hu) in Hlen |- *.
        simpl in Hlen. replace (next + j + 1) with (next + (j + 1)) in * by lia.
        rewrite IH by lia.
        set (run := values_run tokens (next + (j + 1))).
        replace (arr_length (t :: run)) with (1 + arr_length run)
          by (unfold arr_length; simpl length; lia).
        replace (next + (j + 1) + arr_length run)
          with (next + j + (1 + arr_length run)) by lia.
        replace (j + 1 + arr_length run) with (j + (1 + arr_length run)) by lia.
        done.
      * rewrite (values_run_stop _ _ _ Hget Hu).
        change (arr_length []) with 0. rewrite !Z.add_0_r.
        destruct (Z.leb_spec (arr_length tokens) (next + j)); [lia|].
        by rewrite Hget.
    + simpl. rewrite values_run_none by done.
      change (arr_length []) with 0. rewrite !Z.add_0_r.
      destruct (Z.leb_spec (arr_length tokens) (next + j)); [lia|].
      by rewrite Hget.
Qed.

(** *** [collect_values], case by case *)

Lemma collect_values_unlimited argumentDef tokens i :
  args argumentDef = -1 ->
  collect_values argumentDef tokens i =
    inr (values_run tokens (i + 1),
         i + 1 + arr_length (values_run tokens (i + 1))).
Proof.
  intros Hargs. unfold collect_values.
  rewrite bool_decide_eq_true_2 by done.
  rewrite collect_unlimited_run by lia.
  rewrite Z.add_0_r. simpl. by rewrite Z.add_0_l.
Qed.

Lemma collect_values_fixed argumentDef tokens i :
  args argumentDef <> -1 ->
  (Z.to_nat (args argumentDef) <= length (values_run tokens (i + 1)))%nat ->
  collect_values argumentDef tokens i =
    inr (take (Z.to_nat (args argumentDef)) (values_run tokens (i + 1)),
         i + 1 + args argumentDef).
Proof.
  intros Hargs Hlen. unfold collect_values.
  rewrite bool_decide_eq_false_2 by done.
  rewrite collect_fixed_enough by (by rewrite Z.add_0_r).
  by rewrite Z.add_0_r.
Qed.

Lemma collect_values_short argumentDef tokens i :
  args argumentDef <> -1 ->
  (length (values_run tokens (i + 1)) < Z.to_nat (args argumentDef))%nat ->
  let k := arr_length (values_run tokens (i + 1)) in
  collect_values argumentDef tokens i =
    inl {| p_success := false;
           nextIndex := i + 1 + k;
           p_error := Some
             (if arr_length tokens <=? i + 1 + k
              then InsufficientProvided (longName argumentDef)
                     (args argumentDef) k
              else InsufficientFound (longName argumentDef)
                     (args argumentDef) (arr_get tokens (i + 1 + k))) |}.
Proof.
  intros Hargs Hlen. unfold collect_values.
  rewrite bool_decide_eq_false_2 by done.
  rewrite collect_fixed_short by (by rewrite Z.add_0_r).
  by rewrite !Z.add_0_r, Z.add_0_l.
Qed.

(** How far [processArgument] moves the cursor. *)
Lemma collect_values_next argumentDef tokens i :
  match collect_values argumentDef tokens i with
  | inl early => i + 1 <= nextIndex early
  | inr (argValues, next) =>
      (args argumentDef = -1 -> next = i + 1 + arr_length argValues)
      /\ (args argumentDef <> -1 -> next = i + 1 + args argumentDef)
  end.
Proof.
  destruct (decide (args argumentDef = -1)) as [Hu|Hf].
  - rewrite collect_values_unlimited by done. by split.
  - destruct (le_lt_dec (Z.to_nat (args argumentDef))
                (length (values_run tokens (i + 1)))) as [Hle|Hlt].
    + rewrite collect_values_fixed by done. by split.
    + rewrite collect_values_short by done. simpl. unfold arr_length. lia.
Qed.

(** What follows a flag does not depend on how the first token is
    spelled. *)
Lemma collect_values_tail argumentDef (t t' : string) tokens i :
  0 <= i ->
  collect_values argumentDef (t :: tokens) i =
    collect_values argumentDef (t' :: tokens) i.
Proof.
  intros Hi.
  pose proof (values_run_tail t t' tokens (i + 1) ltac:(lia)) as Hrun.
  destruct (decide (args argumentDef = -1)) as [Hu|Hf].
  - rewrite !collect_values_unlimited by done. by rewrite Hrun.
  - destruct (le_lt_dec (Z.to_nat (args argumentDef))
                (length (values_run (t :: tokens) (i + 1)))) as [Hle|Hlt].
    + pose proof Hle as Hle'. rewrite Hrun in Hle'.
      rewrite (collect_values_fixed _ (t :: tokens)) by done.
      rewrite (collect_values_fixed _ (t' :: tokens)) by done.
      by rewrite Hrun.
    + pose proof Hlt as Hlt'. rewrite Hrun in Hlt'.
      rewrite (collect_values_short _ (t :: tokens)) by done.
      rewrite (collect_values_short _ (t' :: tokens)) by done.
      rewrite Hrun.
      rewrite (arr_get_tail t t')
        by (unfold arr_length; lia).
      done.
Qed.

(** *** Recording and calling back *)

Lemma record_and_call_nextIndex argumentDef argValues next st :
  nextIndex (record_and_call argumentDef argValues next st).1 = next.
Proof.
  unfold record_and_call.
  by destruct (callback argumentDef argValues _ (st_world st)) as [w [|t]].
Qed.

Lemma record_and_call_state argumentDef argValues next st :
  let context := set_parsed (st_context st) (longName argumentDef)
                   (normalize (args argumentDef) argValues) in
  (record_and_call argumentDef argValues next st).2 =
    {| st_context := context;
       st_world := (callback argumentDef argValues context (st_world st)).1;
       st_calls := st_calls st ++
         [{| inv_name := longName argumentDef;
             inv_values := argValues;
             inv_context := context |}] |}.
Proof.
  unfold record_and_call.
  by destruct (callback argumentDef argValues _ (st_world st)) as [w [|t]].
Qed.

Lemma processArgument_advance argumentDef tokens i st :
  -1 <= args argumentDef ->
  i + 1 <= nextIndex (processArgument argumentDef tokens i st).1.
Proof.
  intros Hargs. unfold processArgument.
  pose proof (collect_values_next argumentDef tokens i) as Hnext.
  destruct (collect_values argumentDef tokens i) as [early|[argValues next]];
    [done|].
  rewrite record_and_call_nextIndex. destruct Hnext as [Hu Hf].
  destruct (decide (args argumentDef = -1)) as [Heq|Hne].
  - rewrite (Hu Heq). unfold arr_length. lia.
  - rewrite (Hf Hne). lia.
Qed.

(** *** The definitions as a [Map] *)

Lemma map_get_elem_of (m : ArgMap W) k d :
  map_get m k = Some d -> (k, d) ∈ m.
Proof.
  induction m as [|[k' d'] m IH]; simpl; [done|].
  destruct (bool_decide_reflect (k' = k)) as [->|Hne].
  - intros [= ->]. by left.
  - intros Hget. right. by apply IH.
Qed.

Lemma elem_of_map_get (m : ArgMap W) k d :
  NoDup m.*1 -> (k, d) ∈ m -> map_get m k = Some d.
Proof.
  induction m as [|[k' d'] m IH]; intros Hnodup Hin; simpl.
  - by apply elem_of_nil in Hin.
  - simpl in Hnodup. apply NoDup_cons in Hnodup as [Hfresh Hnodup].
    apply elem_of_cons in Hin as [Heq|Hin].
    + inversion Heq; subst. by rewrite bool_decide_eq_true_2.
    + rewrite bool_decide_eq_false_2; [by apply IH|].
      intros ->. apply Hfresh. apply list_elem_of_fmap. by exists (k, d).
Qed.

Lemma map_get_None_keys (m : ArgMap W) k :
  map_get m k = None <-> k ∉ m.*1.
Proof.
  induction m as [|[k' d'] m IH]; simpl.
  - split; [intros _; apply not_elem_of_nil|done].
  - rewrite not_elem_of_cons.
    destruct (bool_decide_reflect (k' = k)) as [->|Hne].
    + split; [done|]. by intros [? _].
    + rewrite IH. split; [by split|by intros [_ ?]].
Qed.

Lemma map_set_fresh (m : ArgMap W) k d :
  map_get m k = None -> map_set m k d = (m ++ [(k, d)])%list.
Proof.
  induction m as [|[k' d'] m IH]; simpl; [done|].
  destruct (bool_decide_reflect (k' = k)); [done|].
  intros Hnone. by rewrite IH.
Qed.

Lemma map_get_app (m m' : ArgMap W) k :
  map_get (m ++ m')%list k =
    match map_get m k with Some d => Some d | None => map_get m' k end.
Proof.
  induction m as [|[k' d'] m IH]; simpl; [done|].
  by destruct (bool_decide (k' = k)).
Qed.

(** *** [addArgument] keeps the registry well formed *)

Lemma empty_registry_ok opts : registry_ok (@empty_registry W opts).
Proof.
  split; [constructor|]. split; [constructor|].
  intros s l Hs. simpl in Hs. by rewrite lookup_empty in Hs.
Qed.

Lemma register_ok this (parsedArg : ParsedArgument W) :
  map_get (arguments this) (longName parsedArg) = None ->
  NoDup (arguments this).*1 ->
  Forall (fun e => longName e.2 = e.1) (arguments this) ->
  (forall s l, shortNameMap this !! s = Some l ->
     s <> "" /\ exists d,
       map_get (arguments this ++ [(longName parsedArg, parsedArg)])%list l
         = Some d /\ shortName d = Some s) ->
  registry_ok (register this parsedArg).2.
Proof.
  intros Hfresh Hnodup Hnames Hshort. unfold register, registry_ok. simpl.
  rewrite map_set_fresh by done. split; [|split].
  - rewrite fmap_app. simpl. apply NoDup_app. split; [done|]. split.
    + intros k Hk Hk'. apply list_elem_of_singleton in Hk' as ->.
      by apply map_get_None_keys in Hfresh.
    + apply NoDup_singleton.
  - apply Forall_app. split; [done|]. by repeat constructor.
  - exact Hshort.
Qed.

Lemma addArgument_ok this argOptions :
  registry_ok this -> registry_ok (addArgument this argOptions).2.
Proof.
  intros Hok. pose proof Hok as (Hnodup & Hnames & Hshort).
  unfold addArgument, map_has.
  set (parsedArg := Build_ParsedArgument _ _ _ _ _ _ _ _).
  destruct (map_get (arguments this) (o_longName argOptions)) eqn:Hfresh;
    [done|].
  assert (Hold : forall s l, shortNameMap this !! s = Some l ->
     s <> "" /\ exists d,
       map_get (arguments this ++ [(longName parsedArg, parsedArg)])%list l
         = Some d /\ shortName d = Some s).
  { intros s l Hs. destruct (Hshort s l Hs) as (Hne & d & Hd & Hsd).
    split; [done|]. exists d. by rewrite map_get_app, Hd. }
  destruct (o_shortName argOptions) as [s|] eqn:Hs;
    [|by apply register_ok].
  destruct (bool_decide_reflect (s = "")); [by apply register_ok|].
  destruct (bool_decide_reflect (is_Some (shortNameMap this !! s)));
    [done|].
  apply register_ok; simpl; try done.
  intros s' l' Hs'. apply lookup_insert_Some in Hs' as [[<- <-]|[Hne Hs']].
  - split; [done|]. exists parsedArg. rewrite map_get_app, Hfresh. simpl.
    by rewrite bool_decide_eq_true_2.
  - by apply Hold.
Qed.

(** A call that returns has put the new definition last. *)
Lemma addArgument_appends this argOptions :
  (addArgument this argOptions).1 = None ->
  exists parsedArg,
    longName parsedArg = o_longName argOptions
    /\ arguments (addArgument this argOptions).2 =
         (arguments this ++ [(o_longName argOptions, parsedArg)])%list.
Proof.
  unfold addArgument, map_has, register.
  destruct (map_get (arguments this) (o_longName argOptions)) eqn:Hfresh;
    [done|].
  set (parsedArg := Build_ParsedArgument _ _ _ _ _ _ _ _).
  intros Hret. exists parsedArg. split; [done|].
  destruct (o_shortName argOptions) as [s|];
    [|simpl; by rewrite map_set_fresh].
  destruct (bool_decide (s = "")); [simpl; by rewrite map_set_fresh|].
  destruct (bool_decide (is_Some (shortNameMap this !! s))); [done|].
  simpl. by rewrite map_set_fresh.
Qed.


(** A call that throws has written nothing. *)
Lemma addArgument_throw_unchanged this argOptions e :
  (addArgument this argOptions).1 = Some e ->
  (addArgument this argOptions).2 = this.
Proof.
  unfold addArgument, map_has, register.
  destruct (map_get (arguments this) (o_longName argOptions)); [done|].
  destruct (o_shortName argOptions) as [s|]; [|done].
  destruct (bool_decide (s = "")); [done|].
  by destruct (bool_decide (is_Some (shortNameMap this !! s))).
Qed.

(** *** Classifying a token *)

Lemma substring_whole (s : string) :
  String.substring 0 (String.length s) s = s.
Proof. induction s as [|c s IH]; simpl; [done|]. by rewrite IH. Qed.

Lemma substring_from_cons n c (s : string) :
  substring_from (S n) (String c s) = substring_from n s.
Proof. done. Qed.

Lemma substring_from_0 (s : string) : substring_from 0 s = s.
Proof.
  unfold substring_from. rewrite Nat.sub_0_r. apply substring_whole.
Qed.

Lemma prefix_empty (s : string) : String.prefix "" s = true.
Proof. by destruct s. Qed.

Lemma dispatch_Matched_range this tokens i argumentDef :
  dispatch this tokens i = Matched argumentDef -> 0 <= i < arr_length tokens.
Proof.
  unfold dispatch. destruct (arr_get tokens i) as [t|] eqn:Hget; [|done].
  intros _. by apply arr_get_Some in Hget.
Qed.

Lemma dispatch_out_of_range this tokens i :
  arr_get tokens i = None -> dispatch this tokens i = Skip.
Proof. unfold dispatch. by intros ->. Qed.

Lemma dispatch_Matched_get this tokens i argumentDef :
  dispatch this tokens i = Matched argumentDef ->
  exists k, map_get (arguments this) k = Some argumentDef.
Proof.
  unfold dispatch. destruct (falsy (arr_get tokens i)); [done|].
  destruct (startsWith _ "--").
  - destruct (map_get _ _) as [d|] eqn:Hd; [|done].
    intros [= <-]. eauto.
  - destruct (_ && _); [|done]. destruct (falsy _); [done|].
    destruct (map_get _ _) as [d|] eqn:Hd; [|done].
    intros [= <-]. eauto.
Qed.

(** The token [-s] resolves through the short-name map. *)
Lemma dispatch_short this tokens s l d :
  s <> "" -> startsWith s "-" = false -> l <> "" ->
  shortNameMap this !! s = Some l ->
  map_get (arguments this) l = Some d ->
  dispatch this (("-" ++ s) :: tokens) 0 = Matched d.
Proof.
  intros Hs Hdash Hl Hshort Hd.
  change ("-" ++ s) with (String "-"%char s).
  unfold dispatch. simpl.
  unfold startsWith in *. simpl. rewrite Hdash, prefix_empty. simpl.
  rewrite bool_decide_eq_true_2
    by (destruct s; [done|simpl; lia]).
  rewrite substring_from_cons, substring_from_0, Hshort. simpl.
  rewrite bool_decide_eq_false_2 by done. by rewrite Hd.
Qed.

(** The token [--l] resolves through the definitions. *)
Lemma dispatch_long this tokens l d :
  map_get (arguments this) l = Some d ->
  dispatch this (("--" ++ l) :: tokens) 0 = Matched d.
Proof.
  intros Hd.
  change ("--" ++ l) with (String "-"%char (String "-"%char l)).
  unfold dispatch. simpl. unfold startsWith. simpl.
  rewrite prefix_empty.
  by rewrite !substring_from_cons, substring_from_0, Hd.
Qed.

Lemma dispatch_tail this t t' tokens i :
  i <> 0 -> dispatch this (t :: tokens) i = dispatch this (t' :: tokens) i.
Proof.
  intros Hi. unfold dispatch.
  assert (Hget : arr_get (t :: tokens) i = arr_get (t' :: tokens) i);
    [|by rewrite Hget].
  unfold arr_get. destruct (Z.ltb_spec i 0); [done|].
  destruct (Z.to_nat i) as [|n] eqn:Hn; [lia|done].
Qed.

(** *** The loop, round by round *)

(** One round of the loop on a matched token. *)
Lemma parse_loop_Matched this tokens fuel i st argumentDef :
  dispatch this tokens i = Matched argumentDef ->
  parse_loop this tokens (S fuel) i st =
    let '(result, st') := processArgument argumentDef tokens i st in
    if negb (p_success result)
    then Some (EarlyReturn (as_ParseResult result), st')
    else parse_loop this tokens fuel (nextIndex result) st'.
Proof.
  intros Hd. pose proof (dispatch_Matched_range _ _ _ _ Hd) as Hi.
  simpl. destruct (Z.ltb_spec i (arr_length tokens)); [|lia].
  by rewrite Hd.
Qed.

(** More fuel does not change a result. *)
Lemma parse_loop_more_fuel this tokens fuel fuel' i st out :
  parse_loop this tokens fuel i st = Some out ->
  (fuel <= fuel')%nat ->
  parse_loop this tokens fuel' i st = Some out.
Proof.
  revert fuel' i st. induction fuel as [|fuel IH]; intros fuel' i st; [done|].
  intros Hloop Hle. destruct fuel' as [|fuel']; [lia|].
  simpl in *. destruct (i <? arr_length tokens); [|done].
  destruct (dispatch this tokens i) as [| | |argumentDef]; try done.
  - apply IH; [done|lia].
  - destruct (processArgument argumentDef tokens i st) as [result st1].
    destruct (negb (p_success result)); [done|]. apply IH; [done|lia].
Qed.

Lemma parse_loop_enough_fuel this tokens fuel i st :
  Forall (fun e => -1 <= args e.2) (arguments this) ->
  (Z.to_nat (arr_length tokens - i) < fuel)%nat ->
  is_Some (parse_loop this tokens fuel i st).
Proof.
  intros Harity. revert i st.
  induction fuel as [|fuel IH]; intros i st Hfuel; [lia|]. simpl.
  destruct (Z.ltb_spec i (arr_length tokens)) as [Hin|Hout]; [|by eexists].
  destruct (dispatch this tokens i) as [| | |argumentDef] eqn:Hd;
    try (by eexists).
  - apply IH. lia.
  - destruct (dispatch_Matched_get _ _ _ _ Hd) as [k Hk].
    apply map_get_elem_of in Hk. rewrite Forall_forall in Harity.
    pose proof (Harity _ Hk) as Hargs. simpl in Hargs.
    pose proof (processArgument_advance argumentDef tokens i st Hargs) as Hadv.
    destruct (processArgument argumentDef tokens i st) as [result st1].
    simpl in Hadv. destruct (negb (p_success result)); [by eexists|].
    apply IH. lia.
Qed.

Lemma parse_fuel_fell_through this tokens w fuel st :
  parse_loop this tokens fuel 0 (initial_state this tokens w)
    = Some (FellThrough, st) ->
  parse_fuel this fuel tokens w = Some (finish this st).
Proof. intros Hloop. unfold parse_fuel. by rewrite Hloop. Qed.

Lemma parse_fuel_early this tokens w fuel r st :
  parse_loop this tokens fuel 0 (initial_state this tokens w)
    = Some (EarlyReturn r, st) ->
  parse_fuel this fuel tokens w = Some (r, st).
Proof. intros Hloop. unfold parse_fuel. by rewrite Hloop. Qed.

Lemma arrives_loop this tokens w i st :
  arrives this tokens w i st ->
  forall fuel out,
    parse_loop this tokens fuel i st = Some out ->
    exists fuel0, forall fuel', (fuel0 <= fuel')%nat ->
      parse_loop this tokens fuel' 0 (initial_state this tokens w) = Some out.
Proof.
  induction 1 as [|i st Harr IH Hi Hd|i st d Harr IH Hd Hok];
    intros fuel out Hloop.
  - exists fuel. intros fuel' Hle. by eapply parse_loop_more_fuel.
  - apply (IH (S fuel)). simpl.
    destruct (Z.ltb_spec i (arr_length tokens)); [|lia]. by rewrite Hd.
  - apply (IH (S fuel)). rewrite (parse_loop_Matched _ _ _ _ _ _ Hd).
    destruct (processArgument d tokens i st) as [result st1].
    simpl in *. by rewrite Hok.
Qed.

(** A [return] inside the loop is what [parse] returns. *)
Lemma arrives_returns this tokens w i st fuel r st' :
  arrives this tokens w i st ->
  parse_loop this tokens fuel i st = Some (EarlyReturn r, st') ->
  exists fuel0, forall fuel', (fuel0 <= fuel')%nat ->
    parse_fuel this fuel' tokens w = Some (r, st').
Proof.
  intros Harr Hloop.
  destruct (arrives_loop _ _ _ _ _ Harr _ _ Hloop) as [fuel0 Hfuel0].
  exists fuel0. intros fuel' Hle. apply parse_fuel_early. by apply Hfuel0.
Qed.

(** *** What the walk records *)

Lemma initial_state_inv this tokens w :
  walk_inv this tokens w (initial_state this tokens w).
Proof.
  split; simpl; [|constructor].
  intros k [v Hv]. by rewrite lookup_empty in Hv.
Qed.

Lemma processArgument_inv this tokens w i argumentDef st :
  arrives this tokens w i st ->
  dispatch this tokens i = Matched argumentDef ->
  walk_inv this tokens w st ->
  walk_inv this tokens w (processArgument argumentDef tokens i st).2.
Proof.
  intros Harr Hd [Hpa Hcalls]. unfold processArgument.
  destruct (collect_values argumentDef tokens i) as [early|[argValues next]];
    [done|].
  rewrite record_and_call_state. split; simpl.
  - intros k Hk. destruct (decide (longName argumentDef = k)) as [<-|Hne].
    + by exists i, st, argumentDef.
    + rewrite lookup_insert_ne in Hk by done. by apply Hpa.
  - apply Forall_app. split; [done|]. constructor; [|constructor].
    by exists i, st, argumentDef.
Qed.

Lemma parse_loop_inv this tokens w fuel i st exit st' :
  arrives this tokens w i st ->
  parse_loop this tokens fuel i st = Some (exit, st') ->
  walk_inv this tokens w st -> walk_inv this tokens w st'.
Proof.
  revert i st. induction fuel as [|fuel IH]; intros i st Harr; simpl; [done|].
  destruct (Z.ltb_spec i (arr_length tokens)); [|by intros [= _ <-]].
  destruct (dispatch this tokens i) as [| | |argumentDef] eqn:Hd.
  - apply IH. by apply arrives_skip.
  - by intros [= _ <-].
  - by intros [= _ <-].
  - pose proof (processArgument_inv _ _ _ _ _ st Harr Hd) as Hstep.
    pose proof (arrives_matched _ _ _ _ _ _ Harr Hd) as Hnext.
    destruct (processArgument argumentDef tokens i st) as [result st1].
    simpl in Hnext. destruct (p_success result); simpl.
    + intros Hloop Hinv. eapply IH; [by apply Hnext|exact Hloop|].
      by apply Hstep.
    + intros [= _ <-] Hinv. by apply Hstep.
Qed.

(** In a well-formed registry a name resolves to one definition only. *)
Lemma resolves_definition this tokens w l d :
  registry_ok this -> (l, d) ∈ arguments this ->
  resolves this tokens w l ->
  exists i st, arrives this tokens w i st
               /\ dispatch this tokens i = Matched d.
Proof.
  intros (Hnodup & Hnames & _) Hin (i & st & d' & Harr & Hd & Hname).
  exists i, st. split; [done|].
  destruct (dispatch_Matched_get _ _ _ _ Hd) as [k Hk].
  pose proof (map_get_elem_of _ _ _ Hk) as Hin'.
  rewrite Forall_forall in Hnames. pose proof (Hnames _ Hin') as Hk'.
  simpl in Hk'. rewrite Hname in Hk'. subst k.
  rewrite (elem_of_map_get _ _ _ Hnodup Hin) in Hk. by inversion Hk; subst.
Qed.

(** *** The required/default pass *)

Lemma has_property_own (pa : gmap string Value) k v :
  pa !! k = Some v -> has_property pa k = true.
Proof.
  intros Hk. unfold has_property.
  by rewrite bool_decide_eq_true_2 by (by eexists).
Qed.

Lemma has_property_false (pa : gmap string Value) k :
  has_property pa k = false ->
  pa !! k = None /\ k <> "__proto__" /\ k ∉ Object_prototype.
Proof.
  unfold has_property, inherited. intros H.
  apply orb_false_iff in H as [Hown H].
  apply orb_false_iff in H as [Hobj _].
  apply bool_decide_eq_false in Hown. apply bool_decide_eq_false in Hobj.
  split; [|split; [|done]].
  - destruct (pa !! k) eqn:E; [|done]. destruct Hown. by eexists.
  - intros ->. apply Hobj. apply (bool_decide_unpack _). by vm_compute.
Qed.

Lemma inherited_insert (pa : gmap string Value) k0 v k :
  k0 <> "__proto__" -> inherited (<[k0 := v]> pa) k = inherited pa k.
Proof. intros Hne. unfold inherited. by rewrite lookup_insert_ne. Qed.

Lemma has_property_insert (pa : gmap string Value) k0 v k :
  k0 <> "__proto__" ->
  has_property (<[k0 := v]> pa) k = has_property pa k || bool_decide (k = k0).
Proof.
  intros Hne. unfold has_property. rewrite inherited_insert by done.
  destruct (decide (k = k0)) as [->|Hk].
  - rewrite lookup_insert_eq, bool_decide_eq_true_2 by (by eexists).
    rewrite (bool_decide_eq_true_2 (k0 = k0)) by done.
    simpl. by rewrite orb_true_r.
  - rewrite lookup_insert_ne by done.
    rewrite (bool_decide_eq_false_2 (k = k0)) by done. by rewrite orb_false_r.
Qed.

Lemma has_property_inherited (pa : gmap string Value) k :
  k ∈ Object_prototype -> has_property pa k = true.
Proof.
  intros Hk. unfold has_property, inherited.
  rewrite (bool_decide_eq_true_2 (k ∈ Object_prototype)) by done.
  by rewrite orb_true_r.
Qed.

Lemma string_length_app (a b : string) :
  String.length (a ++ b) = (String.length a + String.length b)%nat.
Proof.
  induction a as [|c a IH]; [done|].
  change (S (String.length (a ++ b))
          = S (String.length a + String.length b)).
  by rewrite IH.
Qed.

Lemma string_app_inv_r (a b t : string) : a ++ t = b ++ t -> a = b.
Proof.
  revert b. induction a as [|x a IH]; intros [|y b] Heq; [done| | |].
  - apply (f_equal String.length) in Heq.
    change ("" ++ t) with t in Heq.
    change (String.length (String y b ++ t))
      with (S (String.length (b ++ t))) in Heq.
    rewrite string_length_app in Heq. lia.
  - apply (f_equal String.length) in Heq.
    change ("" ++ t) with t in Heq.
    change (String.length (String x a ++ t))
      with (S (String.length (a ++ t))) in Heq.
    rewrite string_length_app in Heq. lia.
  - change (String x (a ++ t) = String y (b ++ t)) in Heq.
    inversion Heq; subst. f_equal. by apply IH.
Qed.

Lemma MissingRequiredArgument_inj (l l' : string) :
  MissingRequiredArgument l = MissingRequiredArgument l' -> l = l'.
Proof.
  unfold MissingRequiredArgument. intros Heq.
  apply (inj (String.app "Required argument --")) in Heq.
  by apply string_app_inv_r in Heq.
Qed.

(** The definition a failed pass names was required and not found. *)
Lemma check_required_reports (entries : ArgMap W) ctx msg :
  (check_required entries ctx).1 = failure msg ->
  exists l, msg = MissingRequiredArgument l
            /\ has_property (parsedArguments ctx) l = false.
Proof.
  revert ctx. induction entries as [|[l d] entries IH]; intros ctx; simpl;
    [done|].
  required_cases d l ctx; try apply IH.
  - intros [= <-]. by exists l.
  - intros Hfail. destruct (has_property_false _ _ Hin) as (_ & Hproto & _).
    destruct (IH _ Hfail) as (l0 & Hmsg & Hgone). exists l0.
    split; [done|]. simpl in Hgone.
    rewrite has_property_insert in Hgone by done.
    by apply orb_false_iff in Hgone as [? _].
Qed.

Lemma check_required_keeps (entries : ArgMap W) ctx k v :
  parsedArguments ctx !! k = Some v ->
  parsedArguments (check_required entries ctx).2 !! k = Some v.
Proof.
  revert ctx. induction entries as [|[l d] entries IH]; intros ctx Hk; simpl;
    [done|].
  required_cases d l ctx; try (by apply IH); try done.
  apply IH. simpl. destruct (decide (l = k)) as [->|Hne].
  - by rewrite (has_property_own _ _ _ Hk) in Hin.
  - by rewrite lookup_insert_ne.
Qed.

Lemma check_required_other (entries : ArgMap W) ctx k :
  k ∉ entries.*1 ->
  parsedArguments (check_required entries ctx).2 !! k =
    parsedArguments ctx !! k.
Proof.
  revert ctx. induction entries as [|[l d] entries IH]; intros ctx Hk; simpl;
    [done|].
  simpl in Hk. apply not_elem_of_cons in Hk as [Hne Hk].
  required_cases d l ctx; try (by apply IH); try done.
  rewrite IH by done. simpl. by rewrite lookup_insert_ne.
Qed.

Lemma check_required_found (entries : ArgMap W) ctx k :
  k ∉ entries.*1 ->
  has_property (parsedArguments (check_required entries ctx).2) k =
    has_property (parsedArguments ctx) k.
Proof.
  revert ctx. induction entries as [|[l d] entries IH]; intros ctx Hk; simpl;
    [done|].
  simpl in Hk. apply not_elem_of_cons in Hk as [Hne Hk].
  required_cases d l ctx; try (by apply IH); try done.
  destruct (has_property_false _ _ Hin) as (_ & Hproto & _).
  rewrite IH by done. simpl. rewrite has_property_insert by done.
  by rewrite bool_decide_eq_false_2, orb_false_r.
Qed.

(** A name that is found in [parsedArguments], as its own or as an
    inherited one, is passed over: the pass leaves what is stored under
    it, if anything, as it is. *)
Lemma check_required_present (entries : ArgMap W) ctx k :
  has_property (parsedArguments ctx) k = true ->
  parsedArguments (check_required entries ctx).2 !! k =
    parsedArguments ctx !! k.
Proof.
  revert ctx. induction entries as [|[l d] entries IH]; intros ctx Hk; simpl;
    [done|].
  required_cases d l ctx; try (by apply IH); try done.
  destruct (has_property_false _ _ Hin) as (_ & Hproto & _).
  rewrite IH.
  - simpl. rewrite lookup_insert_ne; [done|]. intros ->. congruence.
  - simpl. rewrite has_property_insert by done. by rewrite Hk.
Qed.

Lemma check_required_world this st :
  st_world (finish this st).2 = st_world st
  /\ st_calls (finish this st).2 = st_calls st.
Proof. unfold finish. by destruct (check_required _ _). Qed.

Lemma fatal_gap_insert (pa : gmap string Value) k v
    (e : string * ParsedArgument W) :
  k <> "__proto__" ->
  fatal_gap (<[k := v]> pa) e -> fatal_gap pa e.
Proof.
  intros Hk (Hreq & Hnone & Hundef). repeat split; [done| |done].
  rewrite has_property_insert in Hnone by done.
  by apply orb_false_iff in Hnone as [? _].
Qed.

(** The pass stops at the first definition, in insertion order, that is
    required, not found and without default. *)
Lemma check_required_first_gap (pre post : ArgMap W) l d ctx :
  NoDup ((pre ++ (l, d) :: post)%list).*1 ->
  Forall (fun e => ~ fatal_gap (parsedArguments ctx) e) pre ->
  fatal_gap (parsedArguments ctx) (l, d) ->
  (check_required (pre ++ (l, d) :: post)%list ctx).1 =
    failure (MissingRequiredArgument l).
Proof.
  revert ctx. induction pre as [|[l0 d0] pre IH]; intros ctx Hnodup Hpre Hgap.
  - destruct Hgap as (Hreq & Hnone & Hundef). simpl in *.
    rewrite Hreq, Hnone, Hundef. done.
  - simpl in Hnodup. apply NoDup_cons in Hnodup as [Hfresh Hnodup].
    apply Forall_cons in Hpre as [Hhead Hpre]. simpl.
    required_cases d0 l0 ctx; try (by apply IH).
    + by destruct Hhead.
    + destruct (has_property_false _ _ Hin) as (_ & Hproto & _).
      apply IH; [done| |].
      * eapply Forall_impl; [exact Hpre|]. intros e He Hgap'. apply He.
        exact (fatal_gap_insert _ _ _ _ Hproto Hgap').
      * destruct Hgap as (Hreq' & Hnone' & Hundef'). repeat split; try done.
        simpl in *. rewrite has_property_insert, Hnone' by done.
        rewrite bool_decide_eq_false_2; [done|].
        intros ->. apply Hfresh. rewrite fmap_app. simpl.
        apply elem_of_app. right. by left.
Qed.

(** Without such a definition the pass succeeds, and every required
    definition that was not found now holds its default. *)
Lemma check_required_fills (entries : ArgMap W) ctx :
  NoDup entries.*1 ->
  Forall (fun e => ~ fatal_gap (parsedArguments ctx) e) entries ->
  (check_required entries ctx).1 = succeeded
  /\ forall l d, (l, d) ∈ entries -> required d = true ->
       has_property (parsedArguments ctx) l = false ->
       parsedArguments (check_required entries ctx).2 !! l =
         Some (defaultValue d).
Proof.
  revert ctx.
  induction entries as [|[l0 d0] entries IH]; intros ctx Hnodup Hok.
  - split; [done|]. intros l d Hin. by apply elem_of_nil in Hin.
  - simpl in Hnodup. apply NoDup_cons in Hnodup as [Hfresh Hnodup].
    apply Forall_cons in Hok as [Hhead Hok]. simpl.
    assert (Hother : forall l d, (l, d) ∈ entries -> l <> l0).
    { intros l d Hin ->. apply Hfresh. apply list_elem_of_fmap.
      by exists (l0, d). }
    assert (Hsame : ~ (required d0 = true
                       /\ has_property (parsedArguments ctx) l0 = false) ->
      (check_required entries ctx).1 = succeeded
      /\ forall l d, (l, d) ∈ (l0, d0) :: entries -> required d = true ->
           has_property (parsedArguments ctx) l = false ->
           parsedArguments (check_required entries ctx).2 !! l =
             Some (defaultValue d)).
    { intros Hnot. destruct (IH ctx Hnodup Hok) as [Hres Hfill].
      split; [done|]. intros l d Hin Hreq' Hnone'.
      apply elem_of_cons in Hin as [Heq|Hin]; [|by eapply Hfill].
      inversion Heq; subst. by destruct Hnot. }
    destruct (required d0) eqn:Hreq0; simpl; [|apply Hsame; by intros [? _]].
    destruct (has_property (parsedArguments ctx) l0) eqn:Hl0; simpl.
    { apply Hsame. by intros [_ ?]. }
    destruct (bool_decide_reflect (defaultValue d0 = VUndefined))
      as [Hundef|Hdef]; simpl; [by destruct Hhead|].
    destruct (has_property_false _ _ Hl0) as (_ & Hproto & _).
    set (ctx1 := set_parsed ctx l0 (defaultValue d0)).
    assert (Hok1 : Forall (fun e => ~ fatal_gap (parsedArguments ctx1) e) entries).
    { eapply Forall_impl; [exact Hok|]. intros e He Hgap. apply He.
      exact (fatal_gap_insert _ _ _ _ Hproto Hgap). }
    destruct (IH ctx1 Hnodup Hok1) as [Hres Hfill]. split; [done|].
    intros l d Hin Hreq' Hnone'.
    apply elem_of_cons in Hin as [Heq|Hin].
    + inversion Heq; subst. apply check_required_keeps. simpl.
      by rewrite lookup_insert_eq.
    + apply Hfill; [done|done|]. simpl.
      rewrite has_property_insert, Hnone' by done.
      rewrite bool_decide_eq_false_2; [done|]. by eapply Hother.
Qed.

(** The pass succeeds only if there is no such definition. *)
Lemma check_required_succeeded (entries : ArgMap W) ctx :
  NoDup entries.*1 ->
  (check_required entries ctx).1 = succeeded ->
  Forall (fun e => ~ fatal_gap (parsedArguments ctx) e) entries.
Proof.
  revert ctx.
  induction entries as [|[l0 d0] entries IH]; intros ctx Hnodup Hres;
    [constructor|].
  simpl in Hnodup. apply NoDup_cons in Hnodup as [Hfresh Hnodup].
  simpl in Hres. required_cases d0 l0 ctx; simpl in Hres.
  all: try discriminate Hres.
  all: constructor;
    [intros (Hreq' & Hnone' & Hundef'); simpl in *; congruence|].
  all: try (by apply IH).
  destruct (has_property_false _ _ Hin) as (_ & Hproto & _).
  specialize (IH _ Hnodup Hres). rewrite Forall_forall in IH |- *.
  intros [l d] Hin' (Hreq' & Hnone' & Hundef'). apply (IH _ Hin').
  repeat split; try done. simpl in *.
  rewrite has_property_insert, Hnone' by done.
  rewrite bool_decide_eq_false_2; [done|]. intros ->. apply Hfresh.
  apply list_elem_of_fmap. by exists (l0, d).
Qed.

Lemma check_required_app (pre rest : ArgMap W) ctx :
  (check_required pre ctx).1 = succeeded ->
  check_required (pre ++ rest)%list ctx =
    check_required rest (check_required pre ctx).2.
Proof.
  revert ctx. induction pre as [|[l d] pre IH]; intros ctx Hpre; simpl in *;
    [done|].
  required_cases d l ctx; simpl in Hpre; try (by apply IH).
  discriminate Hpre.
Qed.

(** *** Two inputs that differ in their first token *)

Lemma record_and_call_sim argumentDef argValues next st1 st2 :
  snapshot_blind (callback argumentDef) ->
  same_state st1 st2 ->
  (record_and_call argumentDef argValues next st1).1 =
    (record_and_call argumentDef argValues next st2).1
  /\ same_state (record_and_call argumentDef argValues next st1).2
       (record_and_call argumentDef argValues next st2).2.
Proof.
  intros Hblind ([Hcmd Hpa] & Hw & Hcalls). unfold record_and_call.
  rewrite (Hblind argValues
    (set_parsed (st_context st1) (longName argumentDef)
       (normalize (args argumentDef) argValues))
    (set_parsed (st_context st2) (longName argumentDef)
       (normalize (args argumentDef) argValues)) (st_world st1))
    by (simpl; congruence).
  rewrite Hw.
  destruct (callback argumentDef argValues _ (st_world st2)) as [w [|t]];
    simpl.
  all: split; [done|]; split; [|split]; simpl; try done.
  all: try (split; simpl; congruence).
  all: apply Forall2_app; [done|].
  all: constructor; [|constructor].
  all: repeat split; simpl; congruence.
Qed.

Lemma check_required_sim (entries : ArgMap W) ctx1 ctx2 :
  same_context ctx1 ctx2 ->
  (check_required entries ctx1).1 = (check_required entries ctx2).1
  /\ same_context (check_required entries ctx1).2
       (check_required entries ctx2).2.
Proof.
  revert ctx1 ctx2.
  induction entries as [|[l d] entries IH]; intros ctx1 ctx2 [Hcmd Hpa];
    simpl; [done|].
  rewrite Hpa.
  destruct (required d && _); [|by apply IH].
  destruct (negb _); [|done].
  apply IH. split; simpl; congruence.
Qed.

Lemma finish_sim this st1 st2 :
  same_state st1 st2 ->
  (finish this st1).1 = (finish this st2).1
  /\ same_state (finish this st1).2 (finish this st2).2.
Proof.
  intros (Hctx & Hw & Hcalls). unfold finish.
  destruct (check_required_sim (arguments this) _ _ Hctx) as [Hr Hc].
  destruct (check_required _ (st_context st1)) as [r1 c1].
  destruct (check_required _ (st_context st2)) as [r2 c2].
  simpl in *. split; [done|]. by split.
Qed.

(** The walks over two inputs that differ in the spelling of the first
    token, both spellings resolving to the same definition, end
    alike. *)
Lemma parse_loop_sim this (t t' : string) tokens argumentDef :
  dispatch this (t :: tokens) 0 = Matched argumentDef ->
  dispatch this (t' :: tokens) 0 = Matched argumentDef ->
  Forall (fun e => snapshot_blind (callback e.2)) (arguments this) ->
  forall fuel i st1 st2,
    same_state st1 st2 ->
    same_outcome (parse_loop this (t :: tokens) fuel i st1)
                 (parse_loop this (t' :: tokens) fuel i st2).
Proof.
  intros Hd1 Hd2 Hblind. induction fuel as [|fuel IH]; intros i st1 st2 Hst;
    simpl; [done|].
  change (arr_length (t :: tokens)) with (arr_length (t' :: tokens)).
  destruct (i <? arr_length (t' :: tokens)); [|done].
  assert (Hd : dispatch this (t :: tokens) i = dispatch this (t' :: tokens) i).
  { destruct (decide (i = 0)) as [->|Hi]; [congruence|].
    by apply dispatch_tail. }
  rewrite Hd.
  destruct (dispatch this (t' :: tokens) i) as [| | |d] eqn:Hdi;
    try done; [by apply IH|].
  pose proof (dispatch_Matched_range _ _ _ _ Hdi) as Hi.
  destruct (dispatch_Matched_get _ _ _ _ Hdi) as [k Hk].
  apply map_get_elem_of in Hk. rewrite Forall_forall in Hblind.
  pose proof (Hblind _ Hk) as Hcb. simpl in Hcb.
  unfold processArgument.
  rewrite (collect_values_tail d t t') by lia.
  destruct (collect_values d (t' :: tokens) i) as [early|[argValues next]].
  - destruct (negb (p_success early)); [by split|by apply IH].
  - destruct (record_and_call_sim d argValues next st1 st2 Hcb Hst)
      as [Hr Hs].
    destruct (record_and_call d argValues next st1) as [r1 s1].
    destruct (record_and_call d argValues next st2) as [r2 s2].
    simpl in Hr, Hs. subst r2.
    destruct (negb (p_success r1)); [by split|by apply IH].
Qed.

(** ** The claims *)

(** C1, as the code has it.  When the cursor is on a flag that resolves
    to a definition of arity [n >= 1] and only [k < n] usable tokens
    follow it, [processArgument] returns at once, at index [i + 1 + k],
    with nothing recorded and no callback run, and [parse] returns that
    failure (from the loop, and so from any [parse] that gets there).  The message always names the flag and [n].  At the end of
    the input it also gives [k] ("but only k provided"); on a token it
    names the token instead ("but found flag t"), or says "but found end
    of arguments" for an empty token, and does not give [k]. *)
Theorem insufficient_values_report this argumentDef tokens i st fuel :
  dispatch this tokens i = Matched argumentDef ->
  1 <= args argumentDef ->
  arr_length (values_run tokens (i + 1)) < args argumentDef ->
  let l := longName argumentDef in
  let n := args argumentDef in
  let k := arr_length (values_run tokens (i + 1)) in
  let msg :=
    match arr_get tokens (i + 1 + k) with
    | None =>
        "Argument --" ++ l ++ " requires " ++ pretty n
          ++ " value(s), but only " ++ pretty k ++ " provided"
    | Some t =>
        if bool_decide (t = "")
        then "Argument --" ++ l ++ " requires " ++ pretty n
               ++ " value(s), but found end of arguments"
        else "Argument --" ++ l ++ " requires " ++ pretty n
               ++ " value(s), but found flag " ++ t
    end in
  processArgument argumentDef tokens i st =
    ({| p_success := false; nextIndex := i + 1 + k; p_error := Some msg |}, st)
  /\ parse_loop this tokens (S fuel) i st =
       Some (EarlyReturn (failure msg), st)
  /\ (forall w, arrives this tokens w i st ->
        exists fuel0, forall fuel', (fuel0 <= fuel')%nat ->
          parse_fuel this fuel' tokens w = Some (failure msg, st))
  /\ (forall t, arr_get tokens (i + 1 + k) = Some t ->
        t = "" \/ startsWith t "-" = true).
Proof.
  intros Hd Hn Hk l n k msg.
  pose proof (dispatch_Matched_range _ _ _ _ Hd) as Hi.
  assert (Hproc : processArgument argumentDef tokens i st =
    ({| p_success := false; nextIndex := i + 1 + k; p_error := Some msg |}, st)).
  { unfold processArgument.
    rewrite collect_values_short by (unfold arr_length in Hk; lia).
    fold k. do 3 f_equal. subst msg.
    destruct (Z.leb_spec (arr_length tokens) (i + 1 + k)) as [Hpast|Hin].
    - by rewrite arr_get_past.
    - destruct (arr_get_in_range tokens (i + 1 + k)) as [t Ht];
        [unfold k, arr_length in *; lia|].
      rewrite Ht. unfold InsufficientFound, falsy.
      by destruct (bool_decide (t = "")). }
  assert (Hloop : parse_loop this tokens (S fuel) i st =
                    Some (EarlyReturn (failure msg), st))
    by (by rewrite (parse_loop_Matched _ _ _ _ _ _ Hd), Hproc).
  split; [exact Hproc|]. split; [exact Hloop|]. split.
  - intros w Harr. by eapply arrives_returns.
  - intros t Ht. pose proof (values_run_end tokens (i + 1)) as Hend.
    specialize (Hend ltac:(lia)). fold k in Hend. rewrite Ht in Hend. unfold usable in Hend.
    destruct (bool_decide_reflect (t = "")); [by left|right].
    by destruct (startsWith t "-").
Qed.



(** C4, as the code has it.  When the token walk has gone through all
    tokens, [parse] returns what the required/default pass returns.  The
    pass goes through the definitions in insertion order (the order of
    [arguments this], at whose end [addArgument] puts each new one).  A
    definition counts as having an entry when [longName in
    parsedArguments] holds ([has_property]).  The pass fails on the
    first one that is required, is not found and has no default, with
    [Required argument --<l> is missing], naming that one only; the
    required definitions before it that were not found have been given
    their defaults.  If there is no such definition it succeeds, and
    every required definition that was not found holds its default.  No
    callback runs in the pass.

    The test also finds what the object inherits.  A long name that is a
    property of every object ([toString], [constructor], [valueOf], ...)
    is found although the walk recorded nothing under it: such a
    definition, when required, is never reported missing and never given
    its default, where the claim has it reported or filled. *)
Theorem required_pass this tokens w fuel st :
  registry_ok this ->
  parse_loop this tokens fuel 0 (initial_state this tokens w)
    = Some (FellThrough, st) ->
  let pa := parsedArguments (st_context st) in
  let out := finish this st in
  parse_fuel this fuel tokens w = Some out
  /\ st_world out.2 = st_world st
  /\ st_calls out.2 = st_calls st
  /\ (forall pre l d post,
        arguments this = (pre ++ (l, d) :: post)%list ->
        Forall (fun e => ~ fatal_gap pa e) pre ->
        fatal_gap pa (l, d) ->
        out.1 = failure ("Required argument --" ++ l ++ " is missing")
        /\ forall l' d', (l', d') ∈ pre -> required d' = true ->
             has_property pa l' = false ->
             parsedArguments (st_context out.2) !! l'
               = Some (defaultValue d'))
  /\ (Forall (fun e => ~ fatal_gap pa e) (arguments this) ->
        out.1 = succeeded
        /\ forall l d, (l, d) ∈ arguments this -> required d = true ->
             has_property pa l = false ->
             parsedArguments (st_context out.2) !! l
               = Some (defaultValue d))
  /\ (forall l, l ∈ Object_prototype \/ has_property pa l = true ->
        out.1 <> failure ("Required argument --" ++ l ++ " is missing")
        /\ parsedArguments (st_context out.2) !! l = pa !! l).
Proof.
  intros (Hnodup & Hnames & Hshort) Hloop pa out.
  split; [by apply parse_fuel_fell_through|].
  destruct (check_required_world this st) as [Hw Hc].
  split; [exact Hw|]. split; [exact Hc|].
  assert (Hout1 : out.1 = (check_required (arguments this) (st_context st)).1)
    by (unfold out, finish; by destruct (check_required _ _)).
  assert (Hout2 : st_context out.2
                  = (check_required (arguments this) (st_context st)).2)
    by (unfold out, finish; by destruct (check_required _ _)).
  rewrite Hout1, Hout2. split; [|split].
  - intros pre l d post Heq Hpre Hgap. rewrite Heq in Hnodup |- *.
    split; [by apply check_required_first_gap|].
    assert (Hnodup_pre : NoDup pre.*1).
    { rewrite fmap_app in Hnodup. by apply NoDup_app in Hnodup as [? _]. }
    destruct (check_required_fills pre (st_context st) Hnodup_pre Hpre)
      as [Hres Hfill].
    rewrite (check_required_app _ _ _ Hres).
    assert (Hl : l ∉ pre.*1).
    { rewrite fmap_app in Hnodup. apply NoDup_app in Hnodup as (_ & Hdisj & _).
      intros Hin. apply (Hdisj l Hin). simpl. by left. }
    destruct Hgap as (Hreq & Hnone & Hundef). simpl in Hreq, Hnone, Hundef.
    simpl. rewrite Hreq, Hundef.
    rewrite (check_required_found pre (st_context st) l Hl). fold pa.
    rewrite Hnone. simpl. exact Hfill.
  - intros Hok. by apply check_required_fills.
  - intros l Hl.
    assert (Hfound : has_property pa l = true).
    { destruct Hl as [Hl|Hl]; [|done]. by apply has_property_inherited. }
    split; [|by apply check_required_present].
    intros Hfail.
    destruct (check_required_reports _ _ _ Hfail) as (l0 & Hmsg & Hgone).
    apply MissingRequiredArgument_inj in Hmsg as <-. fold pa in Hgone.
    congruence.
Qed.

(** C5.  Take a definition that is required and has a default, whose
    long name is not one that [parsedArguments] inherits, and a walk
    that never comes upon a token that resolves to it.  When the walk
    has gone through all tokens, the definition is not what makes
    [parse] fail: [parse] succeeds unless some required definition
    without default is not found.  When it succeeds, the default is what
    [parsedArguments] holds under the definition's long name.  In any
    case the log has no invocation of the definition: its callback never
    ran, and the pass leaves the world as the walk left it. *)
Theorem default_without_callback this tokens w fuel st l d :
  registry_ok this ->
  (l, d) ∈ arguments this ->
  required d = true ->
  defaultValue d <> VUndefined ->
  (forall i st0, arrives this tokens w i st0 ->
     dispatch this tokens i <> Matched d) ->
  parse_loop this tokens fuel 0 (initial_state this tokens w)
    = Some (FellThrough, st) ->
  inherited (parsedArguments (st_context st)) l = false ->
  let pa := parsedArguments (st_context st) in
  let out := finish this st in
  parse_fuel this fuel tokens w = Some out
  /\ pa !! l = None
  /\ (out.1 = succeeded <->
      Forall (fun e => ~ fatal_gap pa e) (arguments this))
  /\ (out.1 = succeeded ->
      parsedArguments (st_context out.2) !! l = Some (defaultValue d))
  /\ Forall (fun inv => inv_name inv <> l) (st_calls out.2)
  /\ st_world out.2 = st_world st.
Proof.
  intros Hok Hin Hreq Hdef Hnever Hloop Hown pa out.
  assert (Hunresolved : ~ resolves this tokens w l).
  { intros Hres.
    destruct (resolves_definition _ _ _ _ _ Hok Hin Hres) as (i & st0 & Harr & Hi).
    by apply (Hnever i st0). }
  destruct (parse_loop_inv _ _ _ _ _ _ _ _ (arrives_start _ _ _) Hloop
              (initial_state_inv _ _ _)) as [Hpa Hcalls].
  assert (Hnone : pa !! l = None).
  { destruct (pa !! l) eqn:E; [|done].
    destruct Hunresolved. apply Hpa. by eexists. }
  assert (Hgone : has_property pa l = false).
  { unfold has_property. fold pa in Hown. rewrite Hown, Hnone.
    by rewrite bool_decide_eq_false_2 by (by intros [? ?]). }
  destruct Hok as (Hnodup & _ & _).
  destruct (check_required_world this st) as [Hw Hc].
  assert (Hout1 : out.1 = (check_required (arguments this) (st_context st)).1)
    by (unfold out, finish; by destruct (check_required _ _)).
  assert (Hout2 : st_context out.2
                  = (check_required (arguments this) (st_context st)).2)
    by (unfold out, finish; by destruct (check_required _ _)).
  split; [by apply parse_fuel_fell_through|]. split; [exact Hnone|].
  split; [|split; [|split]].
  - rewrite Hout1. split.
    + by apply check_required_succeeded.
    + intros Hgaps. by apply check_required_fills.
  - rewrite Hout1, Hout2. intros Hres.
    apply check_required_fills; try done.
    by apply check_required_succeeded.
  - fold out in Hc. rewrite Hc. eapply Forall_impl; [exact Hcalls|].
    intros inv Hinv Heq. apply Hunresolved. by rewrite <- Heq.
  - exact Hw.
Qed.

(** C6.  With the cursor on a token that starts with two dashes and
    whose name is not registered, or on a single-dash token longer than
    one character whose name is not in the short-name map, [parse]
    returns at that iteration with [Unknown argument: <the raw token>].
    The state is the one the iteration started in: nothing after the
    token is looked at, recorded or called.  A [parse] that gets to the
    token returns this failure. *)
Theorem unknown_argument_stops this tokens i st fuel tok :
  arr_get tokens i = Some tok ->
  (startsWith tok "--" = true
   /\ map_get (arguments this) (substring_from 2 tok) = None)
  \/ (startsWith tok "--" = false /\ startsWith tok "-" = true
      /\ (1 < String.length tok)%nat
      /\ shortNameMap this !! substring_from 1 tok = None) ->
  parse_loop this tokens (S fuel) i st =
    Some (EarlyReturn (failure ("Unknown argument: " ++ tok)), st)
  /\ (forall w, arrives this tokens w i st ->
        exists fuel0, forall fuel', (fuel0 <= fuel')%nat ->
          parse_fuel this fuel' tokens w =
            Some (failure ("Unknown argument: " ++ tok), st)).
Proof.
  intros Hget Hunknown. pose proof (arr_get_Some _ _ _ Hget) as Hi.
  assert (Hloop : parse_loop this tokens (S fuel) i st =
    Some (EarlyReturn (failure ("Unknown argument: " ++ tok)), st));
    [|split; [exact Hloop|]; intros w Harr; by eapply arrives_returns].
  simpl. destruct (Z.ltb_spec i (arr_length tokens)); [|lia].
  assert (Hne : tok <> "").
  { intros ->. by destruct Hunknown as [[? _]|(_ & ? & _)]. }
  assert (Hd : dispatch this tokens i = Unknown tok); [|by rewrite Hd].
  unfold dispatch. rewrite Hget. simpl.
  rewrite bool_decide_eq_false_2 by done.
  destruct Hunknown as [[Hlong Hnone]|(Hnot & Hshort & Hlen & Hnone)].
  - by rewrite Hlong, Hnone.
  - rewrite Hnot, Hshort, Hnone. simpl.
    by rewrite bool_decide_eq_true_2.
Qed.

(** C7, as the code has it.  On a registry built by [addArgument], let
    [s] be registered as the short name of [l], with [s] not starting
    with a dash and [l] not empty, and let no callback look at the raw
    tokens in its context.  Then parsing [-s] followed by [rest] and
    parsing [--l] followed by [rest] end alike: the same [ParseResult],
    the same [parsedArguments], the same world, and the same callbacks
    invoked in the same order with the same values, in contexts that
    differ only in the raw tokens they carry. *)
Theorem short_alias_equivalent this s l rest w fuel :
  registry_ok this ->
  shortNameMap this !! s = Some l ->
  startsWith s "-" = false ->
  l <> "" ->
  Forall (fun e => snapshot_blind (callback e.2)) (arguments this) ->
  same_outcome (parse_fuel this fuel (("-" ++ s) :: rest) w)
               (parse_fuel this fuel (("--" ++ l) :: rest) w)
  /\ same_outcome (parse this (("-" ++ s) :: rest) w)
                  (parse this (("--" ++ l) :: rest) w).
Proof.
  intros (Hnodup & Hnames & Hshorts) Hshort Hdash Hl Hblind.
  destruct (Hshorts s l Hshort) as (Hs & d & Hd & _).
  pose proof (dispatch_short this rest s l d Hs Hdash Hl Hshort Hd) as Hd1.
  pose proof (dispatch_long this rest l d Hd) as Hd2.
  assert (Hfuel : forall fuel',
    same_outcome (parse_fuel this fuel' (("-" ++ s) :: rest) w)
                 (parse_fuel this fuel' (("--" ++ l) :: rest) w)).
  { intros fuel'. unfold parse_fuel.
    assert (Hinit : same_state (initial_state this (("-" ++ s) :: rest) w)
                               (initial_state this (("--" ++ l) :: rest) w)).
    { split; [by split|]. split; [done|]. constructor. }
    pose proof (parse_loop_sim this _ _ rest d Hd1 Hd2 Hblind fuel' 0 _ _ Hinit)
      as Hsim.
    destruct (parse_loop this (("-" ++ s) :: rest) fuel' 0 _)
      as [[exit1 st1]|];
      destruct (parse_loop this (("--" ++ l) :: rest) fuel' 0 _)
        as [[exit2 st2]|]; try done.
    destruct Hsim as [<- Hst]. destruct exit1 as [r|]; [by split|].
    destruct (finish_sim this st1 st2 Hst) as [Hr Hs'].
    destruct (finish this st1) as [r1 s1], (finish this st2) as [r2 s2].
    simpl in *. by split. }
  split; [apply Hfuel|]. unfold parse. simpl length. apply Hfuel.
Qed.

(** C8.  On a registry built by [addArgument], registering a long name
    that is already there throws
    [Argument with long name '<l>' already exists]; registering a short
    name that is already there throws as well, with
    [Argument with short name '<s>' already exists] when the long name
    is new (the long name is checked first).  Both throw before anything
    is written: the registry is the one the call started with, so every
    short name registered before still resolves to its long name and its
    definition. *)
Theorem duplicate_names_rejected this argOptions :
  registry_ok this ->
  let l := o_longName argOptions in
  (is_Some (map_get (arguments this) l) ->
     addArgument this argOptions =
       (Some ("Argument with long name '" ++ l ++ "' already exists"), this))
  /\ (forall s, o_shortName argOptions = Some s ->
        is_Some (shortNameMap this !! s) ->
        exists e, addArgument this argOptions = (Some e, this)
          /\ (map_get (arguments this) l = None ->
              e = "Argument with short name '" ++ s ++ "' already exists"))
  /\ (forall e, (addArgument this argOptions).1 = Some e ->
        (addArgument this argOptions).2 = this
        /\ forall s0 l0, shortNameMap this !! s0 = Some l0 ->
             shortNameMap (addArgument this argOptions).2 !! s0 = Some l0
             /\ exists d0,
                  map_get (arguments (addArgument this argOptions).2) l0
                    = Some d0
                  /\ shortName d0 = Some s0).
Proof.
  intros (Hnodup & Hnames & Hshort) l. split; [|split].
  - intros [d Hd]. unfold addArgument, map_has. fold l. by rewrite Hd.
  - intros s Hs Htaken. unfold addArgument, map_has. fold l. rewrite Hs.
    destruct (map_get (arguments this) l) as [d|] eqn:Hl.
    + eexists. split; [done|]. done.
    + destruct Htaken as [l0 Hl0].
      destruct (Hshort s l0 Hl0) as [Hne _].
      rewrite bool_decide_eq_false_2 by done.
      rewrite bool_decide_eq_true_2 by eauto.
      eexists. split; [done|]. done.
  - intros e He.
    pose proof (addArgument_throw_unchanged _ _ _ He) as Hunchanged.
    split; [exact Hunchanged|].
    intros s0 l0 Hs0. rewrite Hunchanged. split; [done|].
    by destruct (Hshort s0 l0 Hs0) as [_ ?].
Qed.

(** C9.  When the callback of a matched definition throws, [parse]
    returns at that iteration with
    [Error executing callback for --<name>: <message>], where the
    message is that of the thrown [Error] ([Unknown error] for any other
    thrown value).  The state it leaves is the state the iteration
    started in, with this argument's value recorded, this invocation
    logged and the world as the callback left it: nothing done before is
    taken back. *)
Theorem callback_failure_stops this argumentDef tokens i st fuel
    argValues next w' t :
  dispatch this tokens i = Matched argumentDef ->
  collect_values argumentDef tokens i = inr (argValues, next) ->
  let context := set_parsed (st_context st) (longName argumentDef)
                   (normalize (args argumentDef) argValues) in
  callback argumentDef argValues context (st_world st) = (w', Threw t) ->
  parse_loop this tokens (S fuel) i st =
    Some (EarlyReturn
            (failure ("Error executing callback for --"
                        ++ longName argumentDef ++ ": " ++ thrown_message t)),
          {| st_context := context;
             st_world := w';
             st_calls := st_calls st ++
               [{| inv_name := longName argumentDef;
                   inv_values := argValues;
                   inv_context := context |}] |})
  /\ (forall w, arrives this tokens w i st ->
        exists fuel0, forall fuel', (fuel0 <= fuel')%nat ->
          parse_fuel this fuel' tokens w =
            Some (failure ("Error executing callback for --"
                             ++ longName argumentDef ++ ": "
                             ++ thrown_message t),
                  {| st_context := context;
                     st_world := w';
                     st_calls := st_calls st ++
                       [{| inv_name := longName argumentDef;
                           inv_values := argValues;
                           inv_context := context |}] |}))
  /\ (forall k, k <> longName argumentDef ->
        parsedArguments context !! k = parsedArguments (st_context st) !! k).
Proof.
  intros Hd Hcol context Hthrow.
  assert (Hloop : parse_loop this tokens (S fuel) i st =
    Some (EarlyReturn
            (failure ("Error executing callback for --"
                        ++ longName argumentDef ++ ": " ++ thrown_message t)),
          {| st_context := context;
             st_world := w';
             st_calls := st_calls st ++
               [{| inv_name := longName argumentDef;
                   inv_values := argValues;
                   inv_context := context |}] |})).
  { rewrite (parse_loop_Matched _ _ _ _ _ _ Hd).
    unfold processArgument. rewrite Hcol. unfold record_and_call.
    fold context. by rewrite Hthrow. }
  split; [exact Hloop|]. split.
  - intros w Harr. by eapply arrives_returns.
  - intros k Hk. simpl. by rewrite lookup_insert_ne.
Qed.

(** C10, as the code has it.  On a registry whose arities are all [-1]
    or more, [parse] returns: [length tokens + 1] rounds of the loop are
    enough, and any larger number of rounds gives the same result.  Each
    round returns or moves the cursor forward: a skipped token by one, a
    matched definition to [i + 1] for arity 0, [i + 1 + n] for arity
    [n >= 1] and [i + 1 + (number of values)] for the unbounded arity, a
    failed [processArgument] reporting an index of at least [i + 1]. *)
Theorem parse_terminates this tokens w :
  Forall (fun e => -1 <= args e.2) (arguments this) ->
  (exists out, parse this tokens w = Some out
     /\ forall fuel, (length tokens < fuel)%nat ->
          parse_fuel this fuel tokens w = Some out)
  /\ (forall fuel i st, i < arr_length tokens ->
        dispatch this tokens i = Skip ->
        parse_loop this tokens (S fuel) i st
          = parse_loop this tokens fuel (i + 1) st)
  /\ (forall i st argumentDef,
        dispatch this tokens i = Matched argumentDef ->
        let result := (processArgument argumentDef tokens i st).1 in
        i + 1 <= nextIndex result
        /\ (p_success result = true ->
            (args argumentDef = 0 -> nextIndex result = i + 1)
            /\ (1 <= args argumentDef ->
                nextIndex result = i + 1 + args argumentDef)
            /\ (args argumentDef = -1 ->
                nextIndex result
                  = i + 1 + arr_length (values_run tokens (i + 1))))).
Proof.
  intros Harity. split; [|split].
  - assert (Hsome : is_Some (parse_loop this tokens (S (length tokens)) 0
                               (initial_state this tokens w))).
    { apply parse_loop_enough_fuel; [done|]. unfold arr_length. lia. }
    destruct Hsome as [[exit st] Hloop].
    exists (match exit with
            | EarlyReturn r => (r, st)
            | FellThrough => finish this st
            end).
    split.
    + unfold parse, parse_fuel. rewrite Hloop. by destruct exit.
    + intros fuel Hfuel. unfold parse_fuel.
      rewrite (parse_loop_more_fuel _ _ _ fuel _ _ _ Hloop) by lia.
      by destruct exit.
  - intros fuel i st Hi Hd. simpl.
    destruct (Z.ltb_spec i (arr_length tokens)); [|lia]. by rewrite Hd.
  - intros i st argumentDef Hd result.
    destruct (dispatch_Matched_get _ _ _ _ Hd) as [k Hk].
    apply map_get_elem_of in Hk. rewrite Forall_forall in Harity.
    pose proof (Harity _ Hk) as Hargs. simpl in Hargs.
    split; [by apply processArgument_advance|].
    intros Hok. unfold result, processArgument in *.
    pose proof (collect_values_next argumentDef tokens i) as Hnext.
    destruct (collect_values argumentDef tokens i)
      as [early|[argValues next]] eqn:Hcol.
    + simpl in Hok. destruct (decide (args argumentDef = -1)) as [Hu|Hf].
      * by rewrite collect_values_unlimited in Hcol.
      * destruct (le_lt_dec (Z.to_nat (args argumentDef))
                    (length (values_run tokens (i + 1)))) as [Hle|Hlt].
        -- by rewrite collect_values_fixed in Hcol.
        -- rewrite collect_values_short in Hcol by done.
           inversion Hcol; subst. done.
    + rewrite record_and_call_nextIndex. destruct Hnext as [Hu Hf].
      split; [|split].
      * intros H0. rewrite Hf by lia. lia.
      * intros H1. rewrite Hf by lia. done.
      * intros Hm. rewrite collect_values_unlimited in Hcol by done.
        by inversion Hcol.
Qed.

End Facts.

(** * Beyond the claims: the rest of the class *)

Section MoreFacts.

Context {W : Type}.
Implicit Types (this : Shellish W) (argumentDef : ParsedArgument W).
Implicit Types (tokens argValues : list string) (st : PState W).

(** ** The registry *)

Lemma map_get_set_eq (m : ArgMap W) k d : map_get (map_set m k d) k = Some d.
Proof.
  induction m as [|[k' d'] m IH]; simpl.
  - by rewrite bool_decide_eq_true_2.
  - destruct (bool_decide_reflect (k' = k)) as [->|Hne]; simpl.
    + by rewrite bool_decide_eq_true_2.
    + by rewrite bool_decide_eq_false_2.
Qed.

Lemma map_get_set_ne (m : ArgMap W) k k' d :
  k' <> k -> map_get (map_set m k d) k' = map_get m k'.
Proof.
  intros Hne. induction m as [|[k0 d0] m IH]; simpl.
  - by rewrite bool_decide_eq_false_2.
  - destruct (bool_decide_reflect (k0 = k)) as [->|Hne0]; simpl.
    + by rewrite !bool_decide_eq_false_2.
    + destruct (bool_decide (k0 = k')); [done|exact IH].
Qed.

Lemma addArgument_unfold this argOptions :
  addArgument this argOptions =
    if map_has (arguments this) (o_longName argOptions) then
      (Some (DuplicateLongName (o_longName argOptions)), this)
    else
      match o_shortName argOptions with
      | Some s =>
          if bool_decide (s = "") then
            register this (definition_of argOptions)
          else if bool_decide (is_Some (shortNameMap this !! s)) then
            (Some (DuplicateShortName s), this)
          else register (set_short this s (o_longName argOptions))
                 (definition_of argOptions)
      | None => register this (definition_of argOptions)
      end.
Proof. done. Qed.

(** [addArgument] returns exactly when the long name is new and the
    short name, if one is given and not empty, is new as well. *)
Theorem addArgument_returns_iff this argOptions :
  (addArgument this argOptions).1 = None <->
  map_get (arguments this) (o_longName argOptions) = None
  /\ (forall s, o_shortName argOptions = Some s -> s <> "" ->
        shortNameMap this !! s = None).
Proof.
  rewrite addArgument_unfold. unfold map_has, register.
  destruct (map_get (arguments this) (o_longName argOptions)) as [d|];
    [split; [done|by intros [? _]]|].
  destruct (o_shortName argOptions) as [s|];
    [|split; [by split|done]].
  destruct (bool_decide_reflect (s = "")) as [->|Hs].
  { split; [|done]. intros _. split; [done|]. by intros s [= <-]. }
  destruct (shortNameMap this !! s) as [l|] eqn:Hl.
  - rewrite bool_decide_eq_true_2 by eauto. split; [done|].
    intros [_ Hfree]. specialize (Hfree s eq_refl Hs). congruence.
  - rewrite bool_decide_eq_false_2 by (by intros [? ?]).
    split; [|done]. intros _. split; [done|]. by intros s' [= <-].
Qed.

(** When [addArgument] returns, the new definition is what its long
    name looks up, with arity 0 and not required unless said otherwise;
    its short name, if not empty, resolves to the long name; and every
    other long name and short name looks up what it did before. *)
Theorem addArgument_registers this argOptions :
  (addArgument this argOptions).1 = None ->
  let this' := (addArgument this argOptions).2 in
  let l := o_longName argOptions in
  map_get (arguments this') l = Some (definition_of argOptions)
  /\ (o_args argOptions = None -> args (definition_of argOptions) = 0)
  /\ (o_required argOptions = None ->
      required (definition_of argOptions) = false)
  /\ (forall k, k <> l ->
        map_get (arguments this') k = map_get (arguments this) k)
  /\ (forall s, o_shortName argOptions = Some s -> s <> "" ->
        shortNameMap this' !! s = Some l)
  /\ (forall s, o_shortName argOptions <> Some s \/ s = "" ->
        shortNameMap this' !! s = shortNameMap this !! s)
  /\ options this' = options this.
Proof.
  intros Hret this' l. unfold this'. rewrite addArgument_unfold in Hret |- *.
  unfold map_has, register in *.
  destruct (map_get (arguments this) (o_longName argOptions)); [done|].
  split; [|split; [intros H; simpl; by rewrite H|
            split; [intros H; simpl; by rewrite H|]]].
  - destruct (o_shortName argOptions) as [s|];
      [destruct (bool_decide (s = ""));
         [|destruct (bool_decide (is_Some (shortNameMap this !! s)));
             [done|]]|];
      simpl; apply map_get_set_eq.
  - destruct (o_shortName argOptions) as [s|] eqn:Hshort.
    + destruct (bool_decide_reflect (s = "")) as [->|Hs]; simpl.
      * repeat split; try done.
        -- intros k Hk. by apply map_get_set_ne.
        -- by intros s [= <-].
      * destruct (bool_decide (is_Some (shortNameMap this !! s))); [done|].
        simpl. repeat split.
        -- intros k Hk. by apply map_get_set_ne.
        -- intros s' [= <-] _. by rewrite lookup_insert_eq.
        -- intros s' [Hne| ->]; rewrite lookup_insert_ne; congruence.
    + simpl. repeat split; try done.
      intros k Hk. by apply map_get_set_ne.
Qed.

(** Registering the same definition a second time always fails on its
    long name, and changes nothing. *)
Theorem addArgument_twice this argOptions :
  (addArgument this argOptions).1 = None ->
  let this' := (addArgument this argOptions).2 in
  addArgument this' argOptions =
    (Some ("Argument with long name '" ++ o_longName argOptions
             ++ "' already exists"), this').
Proof.
  intros Hret this'.
  assert (Hget : map_get (arguments this') (o_longName argOptions)
                 = Some (definition_of argOptions)).
  { unfold this'. rewrite addArgument_unfold in Hret |- *.
    unfold map_has, register in *.
    destruct (map_get (arguments this) (o_longName argOptions)); [done|].
    destruct (o_shortName argOptions) as [s|];
      [destruct (bool_decide (s = ""));
         [|destruct (bool_decide (is_Some (shortNameMap this !! s)));
             [done|]]|];
      simpl; apply map_get_set_eq. }
  rewrite (addArgument_unfold this'). unfold map_has. by rewrite Hget.
Qed.

(** A definition that has just been registered is found by both forms
    of its flag: [--l] resolves to it, and so does [-s] when its short
    name [s] does not start with a dash and its long name is not
    empty. *)
Theorem registered_flag_resolves this argOptions rest :
  (addArgument this argOptions).1 = None ->
  let this' := (addArgument this argOptions).2 in
  dispatch this' (("--" ++ o_longName argOptions) :: rest) 0
    = Matched (definition_of argOptions)
  /\ forall s, o_shortName argOptions = Some s -> s <> "" ->
       startsWith s "-" = false -> o_longName argOptions <> "" ->
       dispatch this' (("-" ++ s) :: rest) 0
         = Matched (definition_of argOptions).
Proof.
  intros Hret this'.
  assert (Hget : map_get (arguments this') (o_longName argOptions)
                 = Some (definition_of argOptions)
                 /\ forall s, o_shortName argOptions = Some s -> s <> "" ->
                      shortNameMap this' !! s = Some (o_longName argOptions)).
  { unfold this'. rewrite addArgument_unfold in Hret |- *.
    unfold map_has, register in *.
    destruct (map_get (arguments this) (o_longName argOptions)); [done|].
    destruct (o_shortName argOptions) as [s0|].
    - destruct (bool_decide_reflect (s0 = "")) as [Hempty|Hs]; simpl.
      + split; [apply map_get_set_eq|]. intros s' [= <-]. done.
      + destruct (bool_decide (is_Some (shortNameMap this !! s0))); [done|].
        simpl. split; [apply map_get_set_eq|].
        intros s' [= <-] _. by rewrite lookup_insert_eq.
    - simpl. split; [apply map_get_set_eq|done]. }
  destruct Hget as [Hlong Hshort]. split.
  - by apply dispatch_long.
  - intros s Hs Hne Hdash Hl. apply (dispatch_short this' rest s
      (o_longName argOptions)); try done. by apply Hshort.
Qed.


(** ** The constructor *)

Lemma new_Shellish_eq opts (helpCallback versionCallback : Callback W) :
  new_Shellish opts helpCallback versionCallback =
    (None,
     {| options := opts;
        arguments :=
          ("help", definition_of (helpArgument helpCallback))
          :: (if truthy (version opts)
              then [("version", definition_of (versionArgument versionCallback))]
              else []);
        shortNameMap :=
          if truthy (version opts)
          then <["v" := "version"]> {["h" := "help"]}
          else {["h" := "help"]} |}).
Proof. unfold new_Shellish. by destruct (truthy (version opts)). Qed.

(** The constructor never throws.  It leaves [help], with short name
    [h], as the first definition, followed by [version], with short name
    [v], exactly when a non-empty version was given; nothing else is
    registered. *)
Theorem constructor_registers opts (helpCallback versionCallback : Callback W) :
  let created := new_Shellish opts helpCallback versionCallback in
  created.1 = None
  /\ options created.2 = opts
  /\ (arguments created.2).*1 =
       "help" :: (if truthy (version opts) then ["version"] else [])
  /\ Forall (fun e => args e.2 = 0 /\ required e.2 = false
                      /\ defaultValue e.2 = VUndefined)
       (arguments created.2)
  /\ (forall s, shortNameMap created.2 !! s =
        if bool_decide (s = "h") then Some "help"
        else if truthy (version opts) && bool_decide (s = "v")
             then Some "version" else None).
Proof.
  intros created. unfold created. rewrite new_Shellish_eq. simpl.
  split; [done|]. split; [done|].
  destruct (truthy (version opts)); simpl.
  - split; [done|]. split; [by repeat constructor|]. intros s.
    destruct (bool_decide_reflect (s = "h")) as [->|Hh]; [done|].
    destruct (bool_decide_reflect (s = "v")) as [->|Hv]; [done|].
    rewrite lookup_insert_ne by done. by rewrite lookup_singleton_ne.
  - split; [done|]. split; [by repeat constructor|]. intros s.
    destruct (bool_decide_reflect (s = "h")) as [->|Hh]; [done|].
    by rewrite lookup_singleton_ne.
Qed.

(** The names the constructor took cannot be registered again: adding a
    definition named [help], or with short name [h], throws and leaves
    the registry as it was, and so does one named [version] or with
    short name [v] when a non-empty version was given. *)
Theorem constructor_reserves_names opts
    (helpCallback versionCallback : Callback W) argOptions :
  let this := (new_Shellish opts helpCallback versionCallback).2 in
  o_longName argOptions = "help" \/ o_shortName argOptions = Some "h"
  \/ (truthy (version opts) = true
      /\ (o_longName argOptions = "version"
          \/ o_shortName argOptions = Some "v")) ->
  exists e, addArgument this argOptions = (Some e, this).
Proof.
  intros this Hreserved.
  assert (Hthrows : (addArgument this argOptions).1 <> None).
  { intros Hret. apply addArgument_returns_iff in Hret as [Hlong Hshort].
    unfold this in Hlong, Hshort. rewrite new_Shellish_eq in Hlong, Hshort.
    simpl in Hlong, Hshort.
    destruct Hreserved as [Hl|[Hs|[Hv [Hl|Hs]]]].
    - rewrite Hl in Hlong. done.
    - specialize (Hshort "h" Hs ltac:(done)).
      destruct (truthy (version opts)); done.
    - rewrite Hl, Hv in Hlong. done.
    - specialize (Hshort "v" Hs ltac:(done)). rewrite Hv in Hshort. done. }
  destruct (addArgument this argOptions) as [[e|] this'] eqn:Hadd; [|done].
  exists e. f_equal.
  pose proof (addArgument_throw_unchanged this argOptions e) as Hsame.
  rewrite Hadd in Hsame. by apply Hsame.
Qed.


(** However many definitions are added, and whether the calls return or
    throw, the registry the constructor started stays well formed. *)
Theorem registry_stays_ok opts (helpCallback versionCallback : Callback W)
    calls :
  registry_ok
    (after_calls (new_Shellish opts helpCallback versionCallback).2 calls).
Proof.
  assert (Hnew : registry_ok
                   (new_Shellish opts helpCallback versionCallback).2).
  { unfold new_Shellish.
    pose proof (addArgument_ok (empty_registry opts)
                  (helpArgument helpCallback) (empty_registry_ok opts)) as H1.
    destruct (addArgument (empty_registry opts) (helpArgument helpCallback))
      as [[e|] this]; [done|].
    destruct (truthy (version opts)); [|done].
    by apply addArgument_ok. }
  revert Hnew. generalize (new_Shellish opts helpCallback versionCallback).2.
  unfold after_calls. induction calls as [|o calls IH]; intros this Hok;
    simpl; [done|].
  apply IH. by apply addArgument_ok.
Qed.

(** ** The walk, as a whole *)

(** What the loop keeps, it keeps from one matched token to the next. *)
Lemma parse_loop_preserves this tokens (P : PState W -> Prop) :
  (forall i d st, dispatch this tokens i = Matched d ->
     P st -> P (processArgument d tokens i st).2) ->
  forall fuel i st exit st',
    parse_loop this tokens fuel i st = Some (exit, st') -> P st -> P st'.
Proof.
  intros Hstep. induction fuel as [|fuel IH]; intros i st exit st'; simpl;
    [done|].
  destruct (i <? arr_length tokens); [|by intros [= _ <-]].
  destruct (dispatch this tokens i) as [| | |d] eqn:Hd.
  - apply IH.
  - by intros [= _ <-].
  - by intros [= _ <-].
  - specialize (Hstep i d st Hd).
    destruct (processArgument d tokens i st) as [result st1].
    destruct (negb (p_success result)).
    + intros [= _ <-]. exact Hstep.
    + intros Hloop HP. eapply IH; [exact Hloop|]. by apply Hstep.
Qed.

Lemma parse_fuel_cases this fuel tokens w r st :
  parse_fuel this fuel tokens w = Some (r, st) ->
  parse_loop this tokens fuel 0 (initial_state this tokens w)
    = Some (EarlyReturn r, st)
  \/ exists st0,
       parse_loop this tokens fuel 0 (initial_state this tokens w)
         = Some (FellThrough, st0)
       /\ finish this st0 = (r, st).
Proof.
  unfold parse_fuel.
  destruct (parse_loop this tokens fuel 0 _) as [[[r0|] st0]|]; [| |done].
  - intros [= <- <-]. by left.
  - intros Hfin. right. exists st0. split; [done|]. congruence.
Qed.

(** What [collect_values] hands on: usable tokens, as many as a fixed
    arity asks for. *)
Lemma collect_values_inr argumentDef tokens i argValues next :
  collect_values argumentDef tokens i = inr (argValues, next) ->
  Forall (fun t => usable t = true) argValues
  /\ (0 <= args argumentDef -> arr_length argValues = args argumentDef)
  /\ (args argumentDef = -1 -> argValues = values_run tokens (i + 1)).
Proof.
  intros Hcol. destruct (decide (args argumentDef = -1)) as [Hu|Hf].
  - rewrite collect_values_unlimited in Hcol by done.
    inversion Hcol; subst. split; [apply take_usable_all|].
    split; [lia|done].
  - destruct (le_lt_dec (Z.to_nat (args argumentDef))
                (length (values_run tokens (i + 1)))) as [Hle|Hlt].
    + rewrite collect_values_fixed in Hcol by done.
      inversion Hcol; subst. split; [|split; [|done]].
      * apply Forall_take, take_usable_all.
      * intros Hpos. unfold arr_length. rewrite length_take. lia.
    + by rewrite collect_values_short in Hcol.
Qed.

(** Its early returns are failures with one of the two messages. *)
Lemma collect_values_inl argumentDef tokens i early :
  collect_values argumentDef tokens i = inl early ->
  p_success early = false
  /\ ((exists j, p_error early =
         Some (InsufficientProvided (longName argumentDef)
                 (args argumentDef) j))
      \/ (exists nextArg, p_error early =
            Some (InsufficientFound (longName argumentDef)
                    (args argumentDef) nextArg))).
Proof.
  intros Hcol. destruct (decide (args argumentDef = -1)) as [Hu|Hf].
  - by rewrite collect_values_unlimited in Hcol.
  - destruct (le_lt_dec (Z.to_nat (args argumentDef))
                (length (values_run tokens (i + 1)))) as [Hle|Hlt].
    + by rewrite collect_values_fixed in Hcol.
    + rewrite collect_values_short in Hcol by done.
      inversion Hcol; subst. simpl. split; [done|].
      destruct (_ <=? _); [left|right]; by eexists.
Qed.

Lemma processArgument_result this tokens i argumentDef st :
  dispatch this tokens i = Matched argumentDef ->
  let result := (processArgument argumentDef tokens i st).1 in
  (p_success result = true /\ p_error result = None)
  \/ (p_success result = false
      /\ exists msg, p_error result = Some msg /\ parse_error this tokens msg).
Proof.
  intros Hd result. unfold result, processArgument.
  destruct (collect_values argumentDef tokens i)
    as [early|[argValues next]] eqn:Hcol.
  - right. destruct (collect_values_inl _ _ _ _ Hcol) as [Hfail Hmsg].
    split; [done|]. destruct Hmsg as [[j Hj]|[o Ho]].
    + eexists. split; [exact Hj|]. by eapply error_provided.
    + eexists. split; [exact Ho|]. by eapply error_found.
  - unfold record_and_call.
    destruct (callback argumentDef argValues _ (st_world st)) as [w [|t]];
      simpl; [by left|right].
    split; [done|]. eexists. split; [done|]. by eapply error_callback.
Qed.

Lemma dispatch_Unknown this tokens i tok :
  dispatch this tokens i = Unknown tok -> tok ∈ tokens /\ tok <> "".
Proof.
  unfold dispatch. destruct (arr_get tokens i) as [t|] eqn:Hget; [|done].
  simpl. destruct (bool_decide_reflect (t = "")) as [|Hne]; [done|].
  assert (Hin : t ∈ tokens).
  { unfold arr_get in Hget. destruct (i <? 0); [done|].
    by eapply list_elem_of_lookup_2. }
  destruct (startsWith t "--").
  - destruct (map_get _ _); [done|]. by intros [= <-].
  - destruct (_ && _); [|done]. destruct (falsy _).
    + by intros [= <-].
    + by destruct (map_get _ _).
Qed.

Lemma parse_loop_early this tokens fuel i st r st' :
  parse_loop this tokens fuel i st = Some (EarlyReturn r, st') ->
  exists msg, r = failure msg /\ parse_error this tokens msg.
Proof.
  revert i st. induction fuel as [|fuel IH]; intros i st; simpl; [done|].
  destruct (i <? arr_length tokens); [|done].
  destruct (dispatch this tokens i) as [|tok|l|d] eqn:Hd.
  - apply IH.
  - intros [= <- <-]. eexists. split; [done|].
    destruct (dispatch_Unknown _ _ _ _ Hd). by apply error_unknown.
  - intros [= <- <-]. eexists. split; [done|]. by eapply error_internal.
  - pose proof (processArgument_result this tokens i d st Hd) as Hres.
    destruct (processArgument d tokens i st) as [result st1]. simpl in Hres.
    destruct Hres as [[Hok _]|(Hfail & msg & Hmsg & Hkind)].
    + rewrite Hok. simpl. apply IH.
    + rewrite Hfail. simpl. intros [= <- <-]. exists msg. split; [|done].
      unfold as_ParseResult, failure. by rewrite Hfail, Hmsg.
Qed.

Lemma check_required_result (entries : ArgMap W) ctx :
  (check_required entries ctx).1 = succeeded
  \/ exists l d, (l, d) ∈ entries /\ required d = true
                 /\ defaultValue d = VUndefined
                 /\ (check_required entries ctx).1 =
                      failure (MissingRequiredArgument l).
Proof.
  revert ctx. induction entries as [|[l d] entries IH]; intros ctx; simpl;
    [by left|].
  assert (Hrest : forall ctx',
    (check_required entries ctx').1 = succeeded
    \/ exists l0 d0, (l0, d0) ∈ (l, d) :: entries /\ required d0 = true
         /\ defaultValue d0 = VUndefined
         /\ (check_required entries ctx').1 =
              failure (MissingRequiredArgument l0)).
  { intros ctx'. destruct (IH ctx') as [?|(l0 & d0 & Hin & ? & ? & ?)];
      [by left|right]. exists l0, d0. split; [by right|done]. }
  required_cases d l ctx; try apply Hrest.
  right. exists l, d. split; [by left|done].
Qed.

Lemma parse_fuel_result this fuel tokens w r st :
  parse_fuel this fuel tokens w = Some (r, st) ->
  r = succeeded
  \/ exists msg, r = failure msg /\ parse_error this tokens msg.
Proof.
  intros Hparse.
  destruct (parse_fuel_cases _ _ _ _ _ _ Hparse) as [Hearly|(st0 & _ & Hfin)].
  - right. by eapply parse_loop_early.
  - unfold finish in Hfin.
    destruct (check_required_result (arguments this) (st_context st0))
      as [Hok|(l & d & Hin & Hreq & Hundef & Hfail)];
      destruct (check_required _ _) as [r0 ctx]; simpl in *;
      inversion Hfin; subst.
    + by left.
    + right. eexists. split; [done|]. by eapply error_missing.
Qed.


(** A finished [parse] reports either success, with no error message,
    or failure, with a message of one of six kinds; the result never
    carries [helpRequested]. *)
Theorem parse_result_shape this fuel tokens w r st :
  parse_fuel this fuel tokens w = Some (r, st) ->
  helpRequested r = None
  /\ (success r = true <-> error r = None)
  /\ (success r = false ->
      exists msg, error r = Some msg /\ parse_error this tokens msg).
Proof.
  intros Hparse.
  destruct (parse_fuel_result _ _ _ _ _ _ Hparse) as [->|(msg & -> & Hkind)];
    simpl.
  - split; [done|]. split; [done|]. done.
  - split; [done|]. split; [done|]. intros _. by exists msg.
Qed.

Lemma dispatch_not_Internal this tokens i l :
  registry_ok this -> dispatch this tokens i <> Internal l.
Proof.
  intros (_ & _ & Hshort). unfold dispatch.
  destruct (falsy (arr_get tokens i)); [done|].
  destruct (startsWith _ "--"); [by destruct (map_get _ _)|].
  destruct (_ && _); [|done].
  destruct (shortNameMap this !! _) as [l'|] eqn:Hl'; [|done]. simpl.
  destruct (bool_decide (l' = "")); [done|].
  destruct (Hshort _ _ Hl') as (_ & d & Hd & _). by rewrite Hd.
Qed.

(** On a registry built by [addArgument] the internal-consistency
    failure cannot happen: no token is classified as a short name whose
    definition is missing, and [parse] never returns
    [Internal error: argument definition not found for ...]. *)
Theorem internal_error_unreachable this fuel tokens w r st :
  registry_ok this ->
  parse_fuel this fuel tokens w = Some (r, st) ->
  (forall i l, dispatch this tokens i <> Internal l)
  /\ forall l,
       error r <> Some ("Internal error: argument definition not found for "
                          ++ l).
Proof.
  intros Hok Hparse. split; [intros i l; by apply dispatch_not_Internal|].
  intros l.
  destruct (parse_fuel_result _ _ _ _ _ _ Hparse) as [->|(msg & -> & Hkind)];
    [done|].
  simpl. intros [= ->].
  inversion Hkind as [tok ? ? Heq|i l' Hd Heq|i d j ? Heq|i d o ? Heq
                     |i d t ? Heq|l' d ? ? ? Heq]; try discriminate Heq.
  by apply (dispatch_not_Internal this tokens i l' Hok).
Qed.

(** *** What the callbacks are handed *)

Lemma parse_fuel_calls this fuel tokens w r st (Q : Invocation -> Prop) :
  (forall i d st0 argValues next,
     dispatch this tokens i = Matched d ->
     collect_values d tokens i = inr (argValues, next) ->
     Q {| inv_name := longName d; inv_values := argValues;
          inv_context := set_parsed (st_context st0) (longName d)
                           (normalize (args d) argValues) |}) ->
  parse_fuel this fuel tokens w = Some (r, st) ->
  Forall Q (st_calls st).
Proof.
  intros Hcall Hparse.
  assert (Hloop : forall exit st1,
    parse_loop this tokens fuel 0 (initial_state this tokens w)
      = Some (exit, st1) -> Forall Q (st_calls st1)).
  { intros exit st1 Hloop.
    eapply (parse_loop_preserves this tokens
              (fun st => Forall Q (st_calls st))); [|exact Hloop|constructor].
    intros i d st0 Hd HQ. unfold processArgument.
    destruct (collect_values d tokens i) as [early|[argValues next]] eqn:Hcol;
      [done|].
    rewrite record_and_call_state. simpl. apply Forall_app. split; [done|].
    constructor; [|constructor]. by eapply Hcall. }
  destruct (parse_fuel_cases _ _ _ _ _ _ Hparse) as [Hearly|(st0 & Hfell & Hfin)].
  - by eapply Hloop.
  - destruct (check_required_world this st0) as [_ Hcalls].
    rewrite Hfin in Hcalls. simpl in Hcalls. rewrite Hcalls.
    by eapply Hloop.
Qed.

(** No callback is ever handed an empty string or a string that starts
    with a dash, whatever the arity of its definition. *)
Theorem values_never_flag_like this fuel tokens w r st :
  parse_fuel this fuel tokens w = Some (r, st) ->
  Forall (fun inv =>
            Forall (fun v => v <> "" /\ startsWith v "-" = false)
              (inv_values inv))
    (st_calls st).
Proof.
  apply parse_fuel_calls. intros i d st0 argValues next _ Hcol. simpl.
  destruct (collect_values_inr _ _ _ _ _ Hcol) as [Husable _].
  eapply Forall_impl; [exact Husable|]. intros t Hu. unfold usable in Hu.
  destruct (bool_decide_reflect (t = "")); [done|].
  by destruct (startsWith t "-").
Qed.

(** On a registry built by [addArgument], every callback that runs
    belongs to the definition registered under the logged name, and a
    definition of arity [n >= 0] is handed exactly [n] values. *)
Theorem fixed_arity_exact_values this fuel tokens w r st :
  registry_ok this ->
  parse_fuel this fuel tokens w = Some (r, st) ->
  Forall (fun inv =>
            exists d, map_get (arguments this) (inv_name inv) = Some d
                      /\ (0 <= args d ->
                          arr_length (inv_values inv) = args d))
    (st_calls st).
Proof.
  intros (Hnodup & Hnames & _). apply parse_fuel_calls.
  intros i d st0 argValues next Hd Hcol. simpl. exists d.
  destruct (collect_values_inr _ _ _ _ _ Hcol) as (_ & Hlen & _).
  split; [|done].
  destruct (dispatch_Matched_get _ _ _ _ Hd) as [k Hk].
  pose proof (map_get_elem_of _ _ _ Hk) as Hin.
  rewrite Forall_forall in Hnames. pose proof (Hnames _ Hin) as Hkey.
  simpl in Hkey. by rewrite Hkey.
Qed.


Lemma check_required_frame (entries : ArgMap W) ctx :
  command (check_required entries ctx).2 = command ctx
  /\ allArgs (check_required entries ctx).2 = allArgs ctx
  /\ remainingArgs (check_required entries ctx).2 = remainingArgs ctx.
Proof.
  revert ctx. induction entries as [|[l d] entries IH]; intros ctx; simpl;
    [done|].
  destruct (required d && _); [|apply IH].
  destruct (negb _); [|done].
  destruct (IH (set_parsed ctx l (defaultValue d))) as (? & ? & ?). done.
Qed.

(** The context is created once and only its [parsedArguments] ever
    change: every callback, first to last, sees the command name of the
    options and, both as [allArgs] and as [remainingArgs], the whole
    input; [remainingArgs] is never shortened as tokens are consumed. *)
Theorem context_is_constant this fuel tokens w r st :
  parse_fuel this fuel tokens w = Some (r, st) ->
  let fixed ctx :=
    command ctx = name (options this)
    /\ allArgs ctx = tokens /\ remainingArgs ctx = tokens in
  fixed (st_context st)
  /\ Forall (fun inv => fixed (inv_context inv)) (st_calls st).
Proof.
  intros Hparse fixed.
  assert (Hloop : forall exit st1,
    parse_loop this tokens fuel 0 (initial_state this tokens w)
      = Some (exit, st1) ->
    fixed (st_context st1)
    /\ Forall (fun inv => fixed (inv_context inv)) (st_calls st1)).
  { intros exit st1 Hloop.
    eapply (parse_loop_preserves this tokens
              (fun st => fixed (st_context st)
                 /\ Forall (fun inv => fixed (inv_context inv))
                      (st_calls st)));
      [|exact Hloop|by split; [|constructor]].
    intros i d st0 Hd [Hctx Hcalls]. unfold processArgument.
    destruct (collect_values d tokens i) as [early|[argValues next]];
      [done|].
    rewrite record_and_call_state. simpl. split; [exact Hctx|].
    apply Forall_app. split; [done|]. by constructor. }
  destruct (parse_fuel_cases _ _ _ _ _ _ Hparse) as [Hearly|(st0 & Hfell & Hfin)].
  - by eapply Hloop.
  - destruct (Hloop _ _ Hfell) as [(Hc & Ha & Hr) Hcalls].
    destruct (check_required_world this st0) as [_ Hsame].
    rewrite Hfin in Hsame. simpl in Hsame. rewrite Hsame.
    split; [|exact Hcalls].
    unfold finish in Hfin.
    destruct (check_required_frame (arguments this) (st_context st0))
      as (Hc' & Ha' & Hr').
    destruct (check_required _ _) as [r0 ctx]. inversion Hfin; subst.
    simpl in *. unfold fixed. by rewrite Hc', Ha', Hr'.
Qed.

(** *** What ends up in [parsedArguments] *)

Lemma check_required_still_found (entries : ArgMap W) ctx k :
  has_property (parsedArguments ctx) k = true ->
  has_property (parsedArguments (check_required entries ctx).2) k = true.
Proof.
  revert ctx. induction entries as [|[l d] entries IH]; intros ctx Hk; simpl;
    [done|].
  required_cases d l ctx; try (by apply IH); try done.
  destruct (has_property_false _ _ Hin) as (_ & Hproto & _).
  apply IH. simpl. rewrite has_property_insert by done. by rewrite Hk.
Qed.

Lemma check_required_complete (entries : ArgMap W) ctx :
  (check_required entries ctx).1 = succeeded ->
  forall l d, (l, d) ∈ entries -> required d = true ->
    has_property (parsedArguments (check_required entries ctx).2) l = true.
Proof.
  revert ctx. induction entries as [|[l0 d0] entries IH]; intros ctx Hres l d Hin.
  { by apply elem_of_nil in Hin. }
  simpl in Hres |- *. intros Hreq.
  apply elem_of_cons in Hin as [Heq|Hin].
  - inversion Heq; subst. rewrite Hreq in Hres |- *. simpl in *.
    destruct (has_property (parsedArguments ctx) l0) eqn:Hl0; simpl in *.
    + by apply check_required_still_found.
    + destruct (bool_decide (defaultValue d0 = VUndefined)); [done|].
      simpl in *. apply check_required_still_found. simpl.
      eapply has_property_own. by rewrite lookup_insert_eq.
  - destruct (required d0 && _); [|by eapply IH].
    destruct (negb _); [|done]. by eapply IH.
Qed.

Lemma check_required_keys (entries : ArgMap W) ctx k :
  is_Some (parsedArguments (check_required entries ctx).2 !! k) ->
  is_Some (parsedArguments ctx !! k) \/ k ∈ entries.*1.
Proof.
  revert ctx. induction entries as [|[l d] entries IH]; intros ctx; simpl;
    [by left|].
  assert (Hrest : forall ctx',
    is_Some (parsedArguments (check_required entries ctx').2 !! k) ->
    is_Some (parsedArguments ctx' !! k) \/ k ∈ l :: entries.*1).
  { intros ctx' Hk. destruct (IH ctx' Hk); [by left|right; by right]. }
  required_cases d l ctx; try apply Hrest; try (by left).
  intros Hk. destruct (Hrest _ Hk) as [Hins|?]; [|by right].
  simpl in Hins. destruct (decide (l = k)) as [->|Hne]; [right; by left|].
  rewrite lookup_insert_ne in Hins by done. by left.
Qed.

(** On a registry built by [addArgument], [parsedArguments] only ever
    holds registered long names, and after a successful [parse] it
    holds a value for every required definition whose long name it does
    not inherit; a required definition named like an inherited property
    is found by the [in] test all the same. *)
Theorem success_is_complete this fuel tokens w r st :
  registry_ok this ->
  parse_fuel this fuel tokens w = Some (r, st) ->
  let pa := parsedArguments (st_context st) in
  (forall k, is_Some (pa !! k) -> is_Some (map_get (arguments this) k))
  /\ (success r = true ->
      forall l d, (l, d) ∈ arguments this -> required d = true ->
        has_property pa l = true
        /\ (inherited pa l = false -> is_Some (pa !! l))).
Proof.
  intros (Hnodup & Hnames & _) Hparse pa. unfold pa.
  set (known := fun st : PState W =>
    forall k, is_Some (parsedArguments (st_context st) !! k) ->
      is_Some (map_get (arguments this) k)).
  assert (Hfound : forall pa' l,
    has_property pa' l = true ->
    has_property pa' l = true /\ (inherited pa' l = false -> is_Some (pa' !! l))).
  { intros pa' l Hl. split; [done|]. intros Hown. unfold has_property in Hl.
    rewrite Hown, orb_false_r in Hl. by apply bool_decide_eq_true in Hl. }
  assert (Hloop : forall exit st1,
    parse_loop this tokens fuel 0 (initial_state this tokens w)
      = Some (exit, st1) -> known st1).
  { intros exit st1 Hloop.
    eapply (parse_loop_preserves this tokens known); [|exact Hloop|].
    - intros i d st0 Hd Hknown. unfold processArgument.
      destruct (collect_values d tokens i) as [early|[argValues next]];
        [done|].
      rewrite record_and_call_state. intros k Hk. simpl in Hk.
      destruct (decide (longName d = k)) as [<-|Hne].
      + destruct (dispatch_Matched_get _ _ _ _ Hd) as [k' Hk'].
        pose proof (map_get_elem_of _ _ _ Hk') as Hin.
        rewrite Forall_forall in Hnames. pose proof (Hnames _ Hin) as Hkey.
        simpl in Hkey. rewrite Hkey. by eexists.
      + rewrite lookup_insert_ne in Hk by done. by apply Hknown.
    - intros k [v Hv]. simpl in Hv. by rewrite lookup_empty in Hv. }
  destruct (parse_fuel_cases _ _ _ _ _ _ Hparse) as [Hearly|(st0 & Hfell & Hfin)].
  - split; [by eapply Hloop|].
    destruct (parse_loop_early _ _ _ _ _ _ _ Hearly) as (msg & -> & _). done.
  - unfold finish in Hfin.
    pose proof (check_required_keys (arguments this) (st_context st0)) as Hkeys.
    pose proof (check_required_complete (arguments this) (st_context st0))
      as Hcomplete.
    destruct (check_required_result (arguments this) (st_context st0))
      as [Hsucc|(l0 & d0 & _ & _ & _ & Hfail)];
      destruct (check_required _ _) as [r0 ctx]; inversion Hfin; subst;
      simpl in *.
    + split; [|intros _ l d Hin Hreq; apply Hfound; by eapply Hcomplete].
      intros k Hk. destruct (Hkeys k Hk) as [Hold|Hin]; [by eapply Hloop|].
      destruct (map_get (arguments this) k) eqn:E; [by eexists|].
      by apply map_get_None_keys in E.
    + split; [|by rewrite Hfail].
      intros k Hk. destruct (Hkeys k Hk) as [Hold|Hin]; [by eapply Hloop|].
      destruct (map_get (arguments this) k) eqn:E; [by eexists|].
      by apply map_get_None_keys in E.
Qed.





(** ** Tokens that are not flags *)

Lemma prefix_two_dashes (t : string) :
  startsWith t "--" = true -> startsWith t "-" = true.
Proof.
  unfold startsWith. destruct t as [|c t]; [done|].
  change (String.prefix "--" (String c t))
    with (if ascii_dec "-" c then String.prefix "-" t else false).
  change (String.prefix "-" (String c t))
    with (if ascii_dec "-" c then String.prefix "" t else false).
  destruct (ascii_dec "-" c); [|done]. intros _. apply prefix_empty.
Qed.

Lemma dispatch_bare this tokens i t :
  arr_get tokens i = Some t ->
  startsWith t "-" = false \/ t = "-" ->
  dispatch this tokens i = Skip.
Proof.
  intros Hget Hbare. unfold dispatch. rewrite Hget. simpl.
  destruct (bool_decide (t = "")); [done|].
  destruct Hbare as [Hbare| ->]; [|done].
  destruct (startsWith t "--") eqn:Hlong.
  - apply prefix_two_dashes in Hlong. congruence.
  - by rewrite Hbare.
Qed.

Lemma parse_loop_all_skipped this tokens :
  (forall i, dispatch this tokens i = Skip) ->
  forall fuel i st,
    (Z.to_nat (arr_length tokens - i) < fuel)%nat ->
    parse_loop this tokens fuel i st = Some (FellThrough, st).
Proof.
  intros Hskip. induction fuel as [|fuel IH]; intros i st Hfuel; [lia|].
  simpl. destruct (Z.ltb_spec i (arr_length tokens)); [|done].
  rewrite Hskip. apply IH. lia.
Qed.

(** Positional arguments are ignored.  If every token is empty, is the
    lone [-], or does not start with a dash, [parse] runs no callback
    and returns what the required/default pass returns on a context
    with nothing recorded: the same verdict as for an empty input. *)
Theorem bare_tokens_are_ignored this tokens w :
  Forall (fun t => startsWith t "-" = false \/ t = "-") tokens ->
  exists r ctx,
    check_required (arguments this)
      (st_context (initial_state this tokens w)) = (r, ctx)
    /\ parse this tokens w =
         Some (r, {| st_context := ctx; st_world := w; st_calls := [] |})
    /\ fst <$> parse this [] w = Some r.
Proof.
  intros Hbare.
  assert (Hskip : forall i, dispatch this tokens i = Skip).
  { intros i. destruct (arr_get tokens i) as [t|] eqn:Hget;
      [|by apply dispatch_out_of_range].
    eapply dispatch_bare; [exact Hget|].
    rewrite Forall_forall in Hbare. apply Hbare.
    unfold arr_get in Hget. destruct (i <? 0); [done|].
    by eapply list_elem_of_lookup_2. }
  destruct (check_required (arguments this)
              (st_context (initial_state this tokens w))) as [r ctx] eqn:Hreq.
  exists r, ctx. split; [done|]. split.
  - unfold parse, parse_fuel.
    rewrite (parse_loop_all_skipped this tokens Hskip)
      by (unfold arr_length; lia).
    unfold finish. by rewrite Hreq.
  - unfold parse, parse_fuel. simpl. unfold finish.
    pose proof (check_required_sim (arguments this)
                  (st_context (initial_state this [] w))
                  (st_context (initial_state this tokens w))
                  ltac:(by split)) as [Hsame _].
    rewrite Hreq in Hsame.
    destruct (check_required (arguments this)
                (st_context (initial_state this [] w))) as [r' ctx'].
    simpl in Hsame. by rewrite Hsame.
Qed.

(** ** The unbounded arity at the end of the input *)

(** A definition of arity [-1] is never short of values: its callback
    always runs, with whatever run of values follows the flag, and the
    only failure [processArgument] can report for it is the callback's
    own.  With no value after the flag the callback is handed the empty
    list, and the empty list is what is recorded. *)
Theorem unbounded_accepts_no_values argumentDef tokens i st :
  args argumentDef = -1 ->
  let out := processArgument argumentDef tokens i st in
  st_calls out.2 =
    (st_calls st ++
       [{| inv_name := longName argumentDef;
           inv_values := values_run tokens (i + 1);
           inv_context := st_context out.2 |}])%list
  /\ (p_success out.1 = false ->
      exists t, p_error out.1 = Some (CallbackFailure (longName argumentDef) t))
  /\ ((forall t, arr_get tokens (i + 1) = Some t -> usable t = false) ->
      values_run tokens (i + 1) = []
      /\ parsedArguments (st_context out.2) !! longName argumentDef
           = Some (VArr [])).
Proof.
  intros Hargs out. unfold out, processArgument.
  rewrite collect_values_unlimited by done.
  split; [by rewrite record_and_call_state|]. split.
  - unfold record_and_call.
    destruct (callback argumentDef _ _ (st_world st)) as [w [|t]]; simpl;
      [done|]. intros _. by exists t.
  - intros Hnone.
    assert (Hrun : values_run tokens (i + 1) = []).
    { destruct (arr_get tokens (i + 1)) as [t|] eqn:Hget.
      - eapply values_run_stop; [exact Hget|]. by apply Hnone.
      - by apply values_run_none. }
    split; [exact Hrun|]. rewrite record_and_call_state. simpl.
    rewrite lookup_insert_eq. rewrite Hrun, Hargs. done.
Qed.


(** ** The help text *)

Lemma string_app_assoc (a b c : string) : (a ++ b) ++ c = a ++ (b ++ c).
Proof.
  induction a as [|x a IH]; [done|].
  change (String x ((a ++ b) ++ c) = String x (a ++ (b ++ c))).
  by rewrite IH.
Qed.

Lemma string_app_nil_r (a : string) : a ++ "" = a.
Proof.
  induction a as [|x a IH]; [done|].
  change (String x (a ++ "") = String x a). by rewrite IH.
Qed.

Lemma spaces_length n : String.length (spaces n) = n.
Proof. induction n as [|n IH]; simpl; [done|]. by rewrite IH. Qed.

Lemma padEnd_length (s : string) (n : Z) :
  Z.of_nat (String.length (padEnd s (Some n)))
    = Z.max n (Z.of_nat (String.length s)).
Proof. unfold padEnd. rewrite string_length_app, spaces_length. lia. Qed.

Lemma Math_max_bound (xs : list Z) x :
  x ∈ xs -> exists m, Math_max xs = Some m /\ x <= m.
Proof.
  induction xs as [|y xs IH]; intros Hin; [by apply elem_of_nil in Hin|].
  simpl. apply elem_of_cons in Hin as [->|Hin].
  - destruct (Math_max xs) as [m|]; eexists; split; try done; lia.
  - destruct (IH Hin) as (m & Hm & Hle). fold (Math_max xs). rewrite Hm.
    eexists. split; [done|]. lia.
Qed.

Lemma prefix_app (a b : string) : String.prefix a (a ++ b) = true.
Proof.
  induction a as [|c a IH]; [apply prefix_empty|].
  change (String.prefix (String c a) (String c a ++ b))
    with (if ascii_dec c c then String.prefix a (a ++ b) else false).
  by destruct (ascii_dec c c).
Qed.

Lemma contains_prefix (sub s : string) :
  String.prefix sub s = true -> contains sub s = true.
Proof. intros Hp. destruct s; cbn [contains]; by rewrite Hp. Qed.

Lemma contains_here (sub b : string) : contains sub (sub ++ b) = true.
Proof. apply contains_prefix, prefix_app. Qed.

Lemma contains_refl (s : string) : contains s s = true.
Proof.
  pose proof (contains_here s "") as Hc. by rewrite string_app_nil_r in Hc.
Qed.

Lemma contains_app_r (sub a s : string) :
  contains sub s = true -> contains sub (a ++ s) = true.
Proof.
  intros Hs. induction a as [|c a IH]; [done|].
  change (contains sub (String c a ++ s))
    with (String.prefix sub (String c (a ++ s)) || contains sub (a ++ s)).
  rewrite IH. by destruct (String.prefix _ _).
Qed.

Lemma showHelp_line this n (e : string * ParsedArgument W) :
  arguments this !! n = Some e ->
  showHelp this !!
    (4 + (if truthy (version (options this)) then 1 else 0)
       + (if truthy (author (options this)) then 1 else 0) + n)%nat
    = Some (optionLine
              (Math_max ((fun e => Z.of_nat (String.length e.1))
                           <$> arguments this)) e).
Proof.
  intros Hn. unfold showHelp.
  destruct (truthy (version _)), (truthy (author _)); simpl;
    rewrite lookup_app_l by (rewrite length_fmap; by eapply lookup_lt_Some);
    rewrite list_lookup_fmap; unfold ArgMap in Hn; by rewrite Hn.
Qed.

(** The help text has one line for each registered definition, in
    registration order, between a heading of four to six lines and the
    custom help text if there is one; the line of a definition shows its
    long flag and its description, and says when it is required. *)
Theorem help_lists_every_argument this :
  length (showHelp this) =
    (4 + (if truthy (version (options this)) then 1 else 0)
       + (if truthy (author (options this)) then 1 else 0)
       + length (arguments this)
       + (if truthy (helpText (options this)) then 1 else 0))%nat
  /\ forall n l d, arguments this !! n = Some (l, d) ->
       exists line,
         showHelp this !!
           (4 + (if truthy (version (options this)) then 1 else 0)
              + (if truthy (author (options this)) then 1 else 0) + n)%nat
           = Some line
         /\ contains ("--" ++ l) line = true
         /\ contains (a_description d ++ requiredMark d) line = true
         /\ (required d = true -> requiredMark d = " (required)").
Proof.
  unfold showHelp. split.
  - rewrite !length_app, length_fmap. simpl.
    destruct (truthy (version _)), (truthy (author _)),
      (truthy (helpText _)); simpl; lia.
  - intros n l d Hn.
    set (m := Math_max ((fun e => Z.of_nat (String.length e.1))
                          <$> arguments this)).
    exists (optionLine m (l, d)). split; [|split; [|split]].
    + fold (showHelp this). by apply showHelp_line.
    + unfold optionLine. simpl fst. apply contains_app_r, contains_app_r.
      unfold padEnd. destruct (_ <$> m).
      * rewrite string_app_assoc. apply contains_here.
      * apply contains_here.
    + unfold optionLine. simpl snd. do 5 apply contains_app_r.
      apply contains_refl.
    + unfold requiredMark. by intros ->.
Qed.


(** The long flags are padded to the width of the longest one, so the
    descriptions line up: in every line whose definition has no short
    name or a one-character one, and whose arity indicator fits its 15
    columns, the description starts at one and the same column, 24 past
    the length of the longest long name. *)
Theorem help_columns_align this :
  exists column : nat,
    (forall longest, Math_max ((fun e => Z.of_nat (String.length e.1))
                                 <$> arguments this) = Some longest ->
       Z.of_nat column = longest + 24)
    /\ forall n l d,
         arguments this !! n = Some (l, d) ->
         falsy (shortName d) = true
         \/ (exists c, shortName d = Some (String c "")) ->
         (String.length (argsIndicator d) <= 15)%nat ->
         exists lead line,
           showHelp this !!
             (4 + (if truthy (version (options this)) then 1 else 0)
                + (if truthy (author (options this)) then 1 else 0) + n)%nat
             = Some line
           /\ line = lead ++ a_description d ++ requiredMark d
           /\ String.length lead = column.
Proof.
  set (m := Math_max ((fun e => Z.of_nat (String.length e.1))
                        <$> arguments this)).
  exists (Z.to_nat (default 0 m + 24)). split.
  { intros longest Hm. rewrite Hm. simpl.
    assert (0 <= longest); [|lia].
    clear -Hm. unfold m in Hm.
    destruct (arguments this) as [|e entries]; [done|].
    assert (Hin : Z.of_nat (String.length e.1)
                  ∈ (fun e => Z.of_nat (String.length e.1)) <$> e :: entries)
      by (rewrite fmap_cons; by left).
    destruct (Math_max_bound _ _ Hin) as (m' & Hm' & Hle).
    rewrite Hm in Hm'. inversion Hm'; subst. lia. }
  intros n l d Hn Hshort Hfits.
  pose proof (showHelp_line this n (l, d) Hn) as Hline. fold m in Hline.
  destruct (Math_max_bound
              ((fun e => Z.of_nat (String.length e.1)) <$> arguments this)
              (Z.of_nat (String.length l))) as (longest & Hm & Hle).
  { apply list_elem_of_fmap. exists (l, d). split; [done|].
    by eapply list_elem_of_lookup_2. }
  fold m in Hm. rewrite Hm in Hline |- *. simpl default.
  exists ("  " ++ shortFlag d ++ padEnd ("--" ++ l) (Some (longest + 2))
               ++ padEnd (argsIndicator d) (Some 15) ++ " "),
         (optionLine (Some longest) (l, d)).
  split; [exact Hline|]. split.
  - unfold optionLine. simpl fst. simpl snd. simpl fmap.
    by rewrite !string_app_assoc.
  - rewrite !string_length_app.
    pose proof (padEnd_length ("--" ++ l) (longest + 2)) as Hpad1.
    pose proof (padEnd_length (argsIndicator d) 15) as Hpad2.
    rewrite string_length_app in Hpad1.
    assert (Hflag : String.length (shortFlag d) = 4%nat).
    { unfold shortFlag, truthy.
      destruct Hshort as [-> |[c ->]]; [done|]. done. }
    rewrite Hflag. simpl String.length in *. lia.
Qed.

(** ** The run wrapper *)

(** On a registry whose arities are all [-1] or more [parse] returns.
    When the walk has invoked neither of the constructor's own callbacks
    (which end the process themselves), [run] ends the process: with
    status 0 and nothing printed when [parse] succeeded, with status 1
    otherwise, after printing [Error: ] followed by the message of the
    failure, which is always there, and the hint to use [--help].  The
    state is the one [parse] left. *)
Theorem run_exit_status this tokens w :
  Forall (fun e => -1 <= args e.2) (arguments this) ->
  exists r st,
    parse this tokens w = Some (r, st)
    /\ (Forall (fun inv => built_in this (inv_name inv) = false)
          (st_calls st) ->
        exists outcome,
          run this tokens w = Some (outcome, st)
          /\ (success r = true ->
              outcome = {| exitCode := 0; stderr := []; stdout := [] |})
          /\ (success r = false ->
              exists msg,
                error r = Some msg
                /\ parse_error this tokens msg
                /\ outcome =
                     {| exitCode := 1;
                        stderr := ["Error: " ++ msg];
                        stdout :=
                          [newline ++ "Use --help for usage information."] |})).
Proof.
  intros Harity.
  assert (Hsome : is_Some (parse this tokens w)).
  { unfold parse, parse_fuel.
    destruct (parse_loop_enough_fuel this tokens (S (length tokens)) 0
                (initial_state this tokens w) Harity) as [[exit st] Hloop].
    - unfold arr_length. lia.
    - rewrite Hloop. destruct exit; by eexists. }
  destruct Hsome as [[r st] Hparse]. exists r, st. split; [done|].
  intros _. unfold run, run_fuel. unfold parse in Hparse. rewrite Hparse.
  destruct (parse_fuel_result _ _ _ _ _ _ Hparse) as [->|(msg & -> & Hkind)];
    simpl.
  - eexists. split; [done|]. split; done.
  - eexists. split; [done|]. split; [done|].
    intros _. by exists msg.
Qed.


End MoreFacts.


(** * The model at work *)

Import Examples.

Lemma registry_of_ok l : registry_ok (registry_of l).
Proof.
  unfold registry_of.
  assert (Hgen : forall this, registry_ok this ->
            registry_ok (foldl (fun this o => (addArgument this o).2) this l)).
  { induction l as [|o l IH]; intros this Hok; simpl; [done|].
    apply IH. by apply addArgument_ok. }
  apply Hgen, empty_registry_ok.
Qed.

(** ** The cases of the test suite *)

Example parse_flag :
  view (parse cli ["--verbose"] []) =
    Some (succeeded, ["verbose"], [("verbose", [])])
  /\ recorded (parse cli ["--verbose"] []) "verbose" = Some (VBool true).
Proof. split; reflexivity. Qed.

Example parse_short_flag :
  view (parse cli ["-v"] []) = view (parse cli ["--verbose"] []).
Proof. reflexivity. Qed.

Example parse_single_value :
  view (parse cli ["--file"; "test.txt"] []) =
    Some (succeeded, ["file"], [("file", ["test.txt"])])
  /\ recorded (parse cli ["--file"; "test.txt"] []) "file"
       = Some (VStr "test.txt").
Proof. split; reflexivity. Qed.

Example parse_three_values :
  view (parse cli ["--files"; "a.txt"; "b.txt"; "c.txt"] []) =
    Some (succeeded, ["files"], [("files", ["a.txt"; "b.txt"; "c.txt"])])
  /\ recorded (parse cli ["--files"; "a.txt"; "b.txt"; "c.txt"] []) "files"
       = Some (VArr ["a.txt"; "b.txt"; "c.txt"]).
Proof. split; reflexivity. Qed.

Example parse_unknown :
  view (parse cli ["--unknown"] []) =
    Some (failure "Unknown argument: --unknown", [], []).
Proof. reflexivity. Qed.

Example parse_missing_value :
  view (parse cli ["--file"] []) =
    Some (failure "Argument --file requires 1 value(s), but only 0 provided",
          [], []).
Proof. reflexivity. Qed.

Example parse_missing_required :
  view (parse cli_required [] []) =
    Some (failure "Required argument --required is missing", [], []).
Proof. reflexivity. Qed.

Example parse_default :
  view (parse cli_default [] []) = Some (succeeded, [], [])
  /\ recorded (parse cli_default [] []) "optional"
       = Some (VStr "default-value").
Proof. split; reflexivity. Qed.

Example parse_callback_error :
  view (parse cli ["--error"] []) =
    Some (failure "Error executing callback for --error: Callback error",
          [], [("error", [])]).
Proof. reflexivity. Qed.

Example parse_unbounded :
  view (parse cli ["--exclude"; "a"; "b"; "--verbose"] []) =
    Some (succeeded, ["exclude"; "verbose"],
          [("exclude", ["a"; "b"]); ("verbose", [])])
  /\ recorded (parse cli ["--exclude"; "a"; "b"; "--verbose"] []) "exclude"
       = Some (VArr ["a"; "b"]).
Proof. split; reflexivity. Qed.

(** ** Names that [parsedArguments] inherits *)

(** Required arguments named [toString] and [constructor] are taken for
    present on the empty input. *)
Example parse_inherited_names :
  view (parse cli_inherited [] []) = Some (succeeded, [], [])
  /\ recorded (parse cli_inherited [] []) "toString" = None
  /\ recorded (parse cli_inherited [] []) "constructor" = None.
Proof. repeat split; reflexivity. Qed.

(** Once [--__proto__ a b] has made an array the prototype of
    [parsedArguments], a required [length] is found there. *)
Example parse_array_prototype :
  view (parse cli_proto [] []) =
    Some (failure "Required argument --length is missing", [], [])
  /\ view (parse cli_proto ["--__proto__"; "a"; "b"] []) =
       Some (succeeded, ["__proto__"], [("__proto__", ["a"; "b"])]).
Proof. split; reflexivity. Qed.

(** ** The claims on concrete inputs *)

(** [--files] takes three values and gets one before a flag. *)
Lemma insufficient_values_report_witness :
  let tokens := ["--files"; "a"; "-x"] in
  let st := initial_state cli tokens [] in
  processArgument files_def tokens 0 st =
    ({| p_success := false; nextIndex := 2;
        p_error :=
          Some "Argument --files requires 3 value(s), but found flag -x" |},
     st)
  /\ parse_loop cli tokens 1 0 st =
       Some (EarlyReturn
               (failure
                  "Argument --files requires 3 value(s), but found flag -x"),
             st).
Proof.
  intros tokens st.
  destruct (insufficient_values_report cli files_def tokens 0 st 0%nat)
    as (Hproc & Hloop & _); [reflexivity|done|reflexivity|].
  split; [exact Hproc|exact Hloop].
Defined.

(** C1 as stated fails: on a flag-like token the message does not say
    how many values were available (one, here), and on an empty token it
    says the arguments have ended when two more follow. *)
Lemma insufficient_values_message_gaps :
  (view (parse cli ["--files"; "a"; "-x"] []) =
     Some (failure "Argument --files requires 3 value(s), but found flag -x",
           [], [])
   /\ values_run ["--files"; "a"; "-x"] 1 = ["a"]
   /\ contains (pretty 1)
        "Argument --files requires 3 value(s), but found flag -x" = false)
  /\ (view (parse cli ["--files"; "a"; ""; "b"; "c"] []) =
        Some (failure
                "Argument --files requires 3 value(s), but found end of arguments",
              [], [])
      /\ arr_get ["--files"; "a"; ""; "b"; "c"] 3 = Some "b").
Proof. repeat split; reflexivity. Qed.



(** Of two required arguments that are not found and have no default,
    the one registered first is reported, and the default before it is
    filled.  Of two required arguments named [toString] and
    [constructor], on the empty input, neither is reported and the
    default of the second is not filled: [parse] succeeds with nothing
    recorded. *)
Lemma required_pass_witness :
  (let st := initial_state cli_required [] [] in
   (finish cli_required st).1 =
     failure "Required argument --required is missing"
   /\ parsedArguments (st_context (finish cli_required st).2) !! "optional"
        = Some (VStr "default-value"))
  /\ (let out := finish cli_inherited (initial_state cli_inherited [] []) in
      parse_fuel cli_inherited 1 [] [] = Some out
      /\ out.1 = succeeded
      /\ parsedArguments (st_context out.2) !! "toString" = None
      /\ parsedArguments (st_context out.2) !! "constructor" = None).
Proof.
  split.
  - intros st.
    destruct (required_pass cli_required [] [] 1 st)
      as (_ & _ & _ & Hgap & _); [apply registry_of_ok|reflexivity|].
    destruct (Hgap [("optional", optional_def)] "required" required_def
                [("mode", mode_def)]) as [Hres Hfill].
    + reflexivity.
    + constructor; [|constructor]. intros (_ & _ & Hundef). discriminate Hundef.
    + repeat split.
    + split; [exact Hres|].
      apply (Hfill "optional" optional_def); [by left|reflexivity|reflexivity].
  - intros out.
    destruct (required_pass cli_inherited [] [] 1
                (initial_state cli_inherited [] []))
      as (Hparse & _ & _ & _ & Hok & Hskip); [apply registry_of_ok|reflexivity|].
    split; [exact Hparse|]. split; [|split].
    + apply Hok. repeat constructor.
      all: intros (_ & Hgone & _); vm_compute in Hgone; discriminate Hgone.
    + apply (Hskip "toString"). left. apply (bool_decide_unpack _). by vm_compute.
    + apply (Hskip "constructor"). left.
      apply (bool_decide_unpack _). by vm_compute.
Defined.

(** [--verbose] is parsed and called back; [optional] gets its default
    and no call. *)
Lemma default_without_callback_witness :
  view (parse_fuel cli_mixed 2 ["--verbose"] []) =
    Some (succeeded, ["verbose"], [("verbose", [])])
  /\ recorded (parse_fuel cli_mixed 2 ["--verbose"] []) "optional"
       = Some (VStr "default-value").
Proof.
  set (tokens := ["--verbose"]).
  set (st := (processArgument verbose_def tokens 0
                (initial_state cli_mixed tokens [])).2).
  destruct (default_without_callback cli_mixed tokens [] 2 st
              "optional" optional_def)
    as (Hparse & _ & Hiff & Hrec & _ & _).
  - apply registry_of_ok.
  - right. by left.
  - reflexivity.
  - discriminate.
  - intros i st0 _. destruct (decide (i = 0)) as [->|Hi]; [discriminate|].
    rewrite dispatch_out_of_range; [discriminate|].
    unfold arr_get. destruct (Z.ltb_spec i 0); [done|].
    destruct (Z.to_nat i) as [|n] eqn:Hn; [lia|done].
  - reflexivity.
  - by vm_compute.
  - assert (Hok : (finish cli_mixed st).1 = succeeded).
    { apply Hiff. repeat constructor.
      all: intros (Hreq & _ & Hundef); discriminate. }
    rewrite Hparse. unfold view, recorded.
    destruct (finish cli_mixed st) as [r st'] eqn:Hfin.
    simpl in Hok, Hrec. subst r. split; [|exact (Hrec eq_refl)].
    replace st' with (finish cli_mixed st).2 by (by rewrite Hfin).
    reflexivity.
Defined.

(** C5 as stated fails: a required definition with a default that no
    token matches does not make [parse] succeed.  With another required
    definition missing, [parse] fails after the default has been filled
    in; on an unknown token it fails before the pass, and the default is
    not recorded.  In neither case does a callback run. *)
Lemma default_does_not_make_success :
  (map_get (arguments cli_required) "optional" = Some optional_def
   /\ required optional_def = true
   /\ defaultValue optional_def = VStr "default-value"
   /\ view (parse cli_required [] []) =
        Some (failure "Required argument --required is missing", [], [])
   /\ recorded (parse cli_required [] []) "optional"
        = Some (VStr "default-value"))
  /\ (map_get (arguments cli_default) "optional" = Some optional_def
      /\ view (parse cli_default ["--unknown"] []) =
           Some (failure "Unknown argument: --unknown", [], [])
      /\ recorded (parse cli_default ["--unknown"] []) "optional" = None).
Proof. repeat split; reflexivity. Qed.

Lemma unknown_argument_stops_witness :
  let st := initial_state cli ["--unknown"; "--verbose"] [] in
  parse_loop cli ["--unknown"; "--verbose"] 1 0 st =
    Some (EarlyReturn (failure "Unknown argument: --unknown"), st).
Proof.
  intros st.
  apply (unknown_argument_stops cli ["--unknown"; "--verbose"] 0 st 0%nat
           "--unknown"); [reflexivity|].
  left. split; reflexivity.
Defined.

Lemma short_alias_equivalent_witness :
  same_outcome (parse cli ["-" ++ "f"; "test.txt"; "--verbose"] [])
               (parse cli ["--" ++ "file"; "test.txt"; "--verbose"] []).
Proof.
  apply (short_alias_equivalent cli "f" "file" ["test.txt"; "--verbose"] []
           0%nat).
  - apply registry_of_ok.
  - reflexivity.
  - reflexivity.
  - discriminate.
  - repeat constructor.
Defined.

(** C7 as stated fails in three ways.  A short name that starts with a
    dash makes [-s] a long-form token; an empty long name is taken for a
    missing one by the short-name lookup; and a callback can tell the
    two inputs apart by the raw tokens in its context. *)
Lemma short_alias_differences :
  (shortNameMap cli_dash !! "-q" = Some "quiet"
   /\ view (parse cli_dash ["-" ++ "-q"] []) =
        Some (failure "Unknown argument: --q", [], [])
   /\ view (parse cli_dash ["--" ++ "quiet"] []) =
        Some (succeeded, ["quiet"], [("quiet", [])]))
  /\ (shortNameMap cli_empty !! "e" = Some ""
      /\ view (parse cli_empty ["-" ++ "e"] []) =
           Some (failure "Unknown argument: -e", [], [])
      /\ view (parse cli_empty ["--" ++ ""] []) =
           Some (succeeded, ["empty"], [("", [])]))
  /\ (shortNameMap cli_peek !! "v" = Some "verbose"
      /\ view (parse cli_peek ["-" ++ "v"] []) =
           Some (failure
                   "Error executing callback for --verbose: short form",
                 [], [("verbose", [])])
      /\ view (parse cli_peek ["--" ++ "verbose"] []) =
           Some (succeeded, [], [("verbose", [])])).
Proof. repeat split; reflexivity. Qed.

Lemma duplicate_names_rejected_witness :
  addArgument cli
    (argument "verbose" (Some "x") None None VUndefined (say "again")) =
    (Some "Argument with long name 'verbose' already exists", cli)
  /\ addArgument cli
       (argument "quiet" (Some "v") None None VUndefined (say "quiet")) =
       (Some "Argument with short name 'v' already exists", cli).
Proof.
  destruct (duplicate_names_rejected cli
              (argument "verbose" (Some "x") None None VUndefined (say "again"))
              (registry_of_ok _)) as (Hlong & _ & _).
  destruct (duplicate_names_rejected cli
              (argument "quiet" (Some "v") None None VUndefined (say "quiet"))
              (registry_of_ok _)) as (_ & Hshort & _).
  split.
  - apply Hlong. by eexists.
  - destruct (Hshort "v" eq_refl) as (e & He & Hmsg); [by eexists|].
    rewrite He. by rewrite (Hmsg eq_refl).
Defined.

Lemma callback_failure_stops_witness :
  let tokens := ["--verbose"; "--error"; "--file"] in
  let st := (processArgument verbose_def tokens 0
               (initial_state cli tokens [])).2 in
  exists st',
    parse_loop cli tokens 1 1 st =
      Some (EarlyReturn
              (failure "Error executing callback for --error: Callback error"),
            st')
    /\ st_world st' = ["verbose"]
    /\ parsedArguments (st_context st') !! "verbose" = Some (VBool true).
Proof.
  intros tokens st.
  destruct (callback_failure_stops cli error_def tokens 1 st 0%nat [] 2
              ["verbose"] (ThrownError "Callback error"))
    as (Hloop & _); [reflexivity|reflexivity|reflexivity|].
  eexists. split; [exact Hloop|]. split; reflexivity.
Defined.

Lemma parse_terminates_witness :
  exists out,
    parse cli ["--exclude"; "a"; "b"; "--verbose"] [] = Some out
    /\ forall fuel, (4 < fuel)%nat ->
         parse_fuel cli fuel ["--exclude"; "a"; "b"; "--verbose"] [] = Some out.
Proof.
  apply (parse_terminates cli ["--exclude"; "a"; "b"; "--verbose"] []).
  repeat constructor; done.
Defined.

(** C10 as stated fails: with an arity of [-2] registered,
    [processArgument] sends the cursor from 0 back to -1, the loop comes
    back to the same token, and no amount of fuel lets [parse] return. *)
Lemma negative_arity_never_returns :
  dispatch cli_loop ["--loop"] 0 =
    Matched {| longName := "loop"; shortName := None; a_description := "";
               args := -2; required := false; defaultValue := VUndefined;
               callback := say "loop" |}
  /\ nextIndex (processArgument
                  {| longName := "loop"; shortName := None;
                     a_description := ""; args := -2; required := false;
                     defaultValue := VUndefined; callback := say "loop" |}
                  ["--loop"] 0 (initial_state cli_loop ["--loop"] [])).1 = -1
  /\ forall fuel, parse_fuel cli_loop fuel ["--loop"] [] = None.
Proof.
  split; [reflexivity|]. split; [reflexivity|].
  assert (Hloop : forall fuel st,
            parse_loop cli_loop ["--loop"] fuel 0 st = None
            /\ parse_loop cli_loop ["--loop"] fuel (-1) st = None).
  { induction fuel as [|fuel IH]; intros st; [done|]. split.
    - rewrite (parse_loop_Matched cli_loop ["--loop"] fuel 0 st _ eq_refl).
      unfold processArgument.
      change (collect_values _ ["--loop"] 0) with
        (inr ([], -1) : ProcessResult + list string * Z).
      simpl. apply IH.
    - simpl. apply IH. }
  intros fuel. unfold parse_fuel. by rewrite (proj1 (Hloop fuel _)).
Qed.

(** ** The rest of the class on concrete inputs *)

Import MoreExamples.

Lemma addArgument_registers_witness :
  let this' := (addArgument cli (argument "quiet" (Some "q") None None
                                   VUndefined (say "quiet"))).2 in
  args <$> map_get (arguments this') "quiet" = Some 0
  /\ shortNameMap this' !! "q" = Some "quiet"
  /\ shortNameMap this' !! "v" = Some "verbose".
Proof.
  intros this'.
  destruct (addArgument_registers cli
              (argument "quiet" (Some "q") None None VUndefined (say "quiet")))
    as (Hget & _ & _ & _ & Hshort & Hother & _); [reflexivity|].
  split; [exact (f_equal (fmap args) Hget)|].
  split; [by apply Hshort|].
  unfold this'. rewrite Hother; [reflexivity|]. by left.
Defined.

(** The test suite's [verbose]/[v] on an instance with a version: [v] is
    taken by [version]. *)
Lemma constructor_reserves_names_witness :
  let this := (new_Shellish exec_options (say "help") (say "version")).2 in
  exists e, addArgument this verbose_v = (Some e, this).
Proof.
  apply (constructor_reserves_names exec_options (say "help") (say "version")
           verbose_v).
  right. right. split; [reflexivity|]. by right.
Defined.

Example constructor_short_name_taken :
  (addArgument (new_Shellish exec_options (say "help") (say "version")).2
     verbose_v).1 = Some "Argument with short name 'v' already exists".
Proof. reflexivity. Qed.

Lemma parse_result_shape_witness :
  let out := finished (parse_fuel cli 3 ["--file"; "--verbose"] []) in
  parse_fuel cli 3 ["--file"; "--verbose"] [] = Some out
  /\ success out.1 = false
  /\ exists msg, error out.1 = Some msg
                 /\ parse_error cli ["--file"; "--verbose"] msg.
Proof.
  intros out. split; [reflexivity|]. split; [reflexivity|].
  apply (parse_result_shape cli 3 ["--file"; "--verbose"] [] out.1 out.2);
    reflexivity.
Defined.

Lemma internal_error_unreachable_witness :
  let out := finished (parse_fuel cli 3 ["-x"; "--verbose"] []) in
  parse_fuel cli 3 ["-x"; "--verbose"] [] = Some out
  /\ forall l,
       error out.1
         <> Some ("Internal error: argument definition not found for " ++ l).
Proof.
  intros out. split; [reflexivity|].
  apply (internal_error_unreachable cli 3 ["-x"; "--verbose"] [] out.1 out.2);
    [apply registry_of_ok|reflexivity].
Defined.

Lemma values_never_flag_like_witness :
  let tokens := ["--exclude"; "a"; "b"; "-5"; "--file"] in
  let out := finished (parse_fuel cli 6 tokens []) in
  parse_fuel cli 6 tokens [] = Some out
  /\ Forall (fun inv =>
               Forall (fun v => v <> "" /\ startsWith v "-" = false)
                 (inv_values inv))
       (st_calls out.2).
Proof.
  intros tokens out. split; [reflexivity|].
  apply (values_never_flag_like cli 6 tokens [] out.1 out.2). reflexivity.
Defined.

Lemma fixed_arity_exact_values_witness :
  let tokens := ["--files"; "a"; "b"; "c"; "d"; "--file"; "e"] in
  let out := finished (parse_fuel cli 8 tokens []) in
  parse_fuel cli 8 tokens [] = Some out
  /\ Forall (fun inv =>
               exists d, map_get (arguments cli) (inv_name inv) = Some d
                         /\ (0 <= args d ->
                             arr_length (inv_values inv) = args d))
       (st_calls out.2).
Proof.
  intros tokens out. split; [reflexivity|].
  apply (fixed_arity_exact_values cli 8 tokens [] out.1 out.2);
    [apply registry_of_ok|reflexivity].
Defined.

Lemma context_is_constant_witness :
  let tokens := ["--file"; "a"; "--verbose"] in
  let out := finished (parse_fuel cli 4 tokens []) in
  parse_fuel cli 4 tokens [] = Some out
  /\ remainingArgs (st_context out.2) = tokens
  /\ Forall (fun inv => remainingArgs (inv_context inv) = tokens)
       (st_calls out.2).
Proof.
  intros tokens out. split; [reflexivity|].
  destruct (context_is_constant cli 4 tokens [] out.1 out.2 eq_refl)
    as [(_ & _ & Hrem) Hcalls].
  split; [exact Hrem|].
  eapply Forall_impl; [exact Hcalls|]. by intros inv (_ & _ & ?).
Defined.

Lemma success_is_complete_witness :
  let out := finished (parse_fuel exec_cli 3 ["--file"; "a.ts"] []) in
  parse_fuel exec_cli 3 ["--file"; "a.ts"] [] = Some out
  /\ success out.1 = true
  /\ is_Some (parsedArguments (st_context out.2) !! "file").
Proof.
  intros out. split; [reflexivity|]. split; [reflexivity|].
  destruct (success_is_complete exec_cli 3 ["--file"; "a.ts"] [] out.1 out.2
              (registry_stays_ok _ _ _ _) eq_refl) as [_ Hrequired].
  apply (Hrequired eq_refl "file"
           {| longName := "file"; shortName := Some "f";
              a_description := "Path to the file to execute";
              args := 1; required := true; defaultValue := VUndefined;
              callback := say "file" |}); [|reflexivity|by vm_compute].
  right. right. by left.
Defined.

Lemma bare_tokens_are_ignored_witness :
  exists r ctx,
    check_required (arguments exec_cli)
      (st_context (initial_state exec_cli ["build"; "-"; ""; "now"] []))
      = (r, ctx)
    /\ parse exec_cli ["build"; "-"; ""; "now"] [] =
         Some (r, {| st_context := ctx; st_world := []; st_calls := [] |})
    /\ fst <$> parse exec_cli [] [] = Some r.
Proof.
  apply (bare_tokens_are_ignored exec_cli ["build"; "-"; ""; "now"] []).
  repeat constructor; by (left + right).
Defined.

Lemma unbounded_accepts_no_values_witness :
  let tokens := ["--exclude"; "--verbose"] in
  let out := processArgument exclude_def tokens 0
               (initial_state cli tokens []) in
  p_success out.1 = true
  /\ parsedArguments (st_context out.2) !! "exclude" = Some (VArr []).
Proof.
  intros tokens out.
  destruct (unbounded_accepts_no_values exclude_def tokens 0
              (initial_state cli tokens []) eq_refl) as (_ & _ & Hempty).
  split; [reflexivity|]. apply Hempty.
  intros t [= <-]. reflexivity.
Defined.

Lemma run_exit_status_witness :
  let out := finished (parse exec_cli ["--verbose"] []) in
  parse exec_cli ["--verbose"] [] = Some out
  /\ exists outcome,
       run exec_cli ["--verbose"] [] = Some (outcome, out.2)
       /\ exitCode outcome = 1
       /\ stderr outcome = ["Error: Required argument --file is missing"].
Proof.
  intros out. split; [reflexivity|].
  destruct (run_exit_status exec_cli ["--verbose"] [])
    as (r & st & Hparse & Hrun).
  { repeat constructor; done. }
  assert (Heq : (r, st) = out).
  { assert (Hval : parse exec_cli ["--verbose"] [] = Some out) by reflexivity.
    rewrite Hparse in Hval. by inversion Hval. }
  destruct Hrun as (outcome & Hrun & _ & Hfail).
  { replace st with out.2 by (by rewrite <- Heq).
    repeat constructor. }
  exists outcome. replace out.2 with st by (by rewrite <- Heq).
  split; [exact Hrun|].
  assert (Hr : r = failure "Required argument --file is missing")
    by (replace r with out.1 by (by rewrite <- Heq); reflexivity).
  subst r. destruct (Hfail eq_refl) as (msg & Hmsg & _ & ->).
  inversion Hmsg; subst. split; reflexivity.
Defined.

(** The help text of [examples/basic.ts]. *)
Example showHelp_basic :
  showHelp exec_cli =
    ["exec - Execute nice files"; "Version: 1.0.0"; "Author: Your Name";
     newline ++ "Usage:"; "  exec [options]"; newline ++ "Options:";
     "  -h, --help                   Show help information";
     "  -v, --version                Show version information";
     "  -f, --file    <value>        Path to the file to execute (required)";
     "      --verbose                Enable verbose output";
     "  -o, --output  <value>        Output file for results"].
Proof. reflexivity. Qed.

Lemma addArgument_twice_witness :
  (addArgument (new_Shellish test_cli (say "help") (say "version")).2
     verbose_v).1 = None
  /\ addArgument
       (addArgument (new_Shellish test_cli (say "help") (say "version")).2
          verbose_v).2 verbose_v =
       (Some "Argument with long name 'verbose' already exists",
        (addArgument (new_Shellish test_cli (say "help") (say "version")).2
           verbose_v).2).
Proof.
  split; [reflexivity|].
  apply (addArgument_twice
           (new_Shellish test_cli (say "help") (say "version")).2 verbose_v).
  reflexivity.
Defined.

Lemma registered_flag_resolves_witness :
  let this' :=
    (addArgument (new_Shellish test_cli (say "help") (say "version")).2
       verbose_v).2 in
  dispatch this' ["--" ++ "verbose"; "x"] 0 = Matched (definition_of verbose_v)
  /\ dispatch this' ["-" ++ "v"; "x"] 0 = Matched (definition_of verbose_v).
Proof.
  intros this'.
  destruct (registered_flag_resolves
              (new_Shellish test_cli (say "help") (say "version")).2
              verbose_v ["x"]) as [Hlong Hshort]; [reflexivity|].
  split; [exact Hlong|]. by apply Hshort.
Defined.

